(** * Synchronous consensus simulation (concensus.py)

    A shallow embedding of the classes [Agent], [Network] and
    [ConsensusSimulation].  Python objects that are mutated in place become
    explicit state: an operation is a function from the state before the call
    to the outcome of the call (a value, or the exception raised) and the
    state after it.

    Python's [float] is kept abstract behind the class [Scalar], which lists
    exactly the operations the program applies to it.  Two instances are
    given: IEEE binary64 (what CPython runs) and the rationals [Q] (exact
    arithmetic).  Everything that does not depend on arithmetic laws is
    proved once for every instance. *)

From Stdlib Require Import ZArith QArith Qabs List Bool Lia Lqa.
From Stdlib Require Import Floats Numbers.Cyclic.Int63.Uint63.
Import ListNotations.

Set Implicit Arguments.
Local Set Warnings "-inexact-float".
Local Open Scope Z_scope.

(** ** Numbers *)

(** The operations of Python's [float] used by the program, the literals,
    and the conversion from [int] that the arithmetic performs when an
    operand is an [int]: the 0 that [sum] starts from, the divisor
    [1 + len(...)], and both operands of [changed / len(...)], whose
    quotient is that of the converted operands for counts below 2^53. *)
Class Scalar (T : Type) : Type := {
  zero : T;                 (* 0.0, also what the int 0 of sum() becomes *)
  one : T;                  (* 1.0 *)
  c02 : T;                  (* the literal 0.2 *)
  add : T -> T -> T;
  sub : T -> T -> T;
  mul : T -> T -> T;
  div : T -> T -> T;        (* only applied to a non-zero divisor *)
  ltb : T -> T -> bool;
  leb : T -> T -> bool;
  absv : T -> T;
  of_int : Z -> T
}.

(** [a > b] is [b < a]. *)
Definition gtb {T} `{Scalar T} (a b : T) : bool := ltb b a.

Module F64.

(** int -> float, for the magnitudes below 2^63 that a count can take. *)
Definition float_of_int (z : Z) : float :=
  if z <? 0 then PrimFloat.opp (PrimFloat.of_uint63 (Uint63.of_Z (- z)))
  else PrimFloat.of_uint63 (Uint63.of_Z z).

#[export] Instance scalar : Scalar float := {|
  zero := 0%float;
  one := 1%float;
  c02 := 0.2%float;
  add := PrimFloat.add;
  sub := PrimFloat.sub;
  mul := PrimFloat.mul;
  div := PrimFloat.div;
  ltb := PrimFloat.ltb;
  leb := PrimFloat.leb;
  absv := PrimFloat.abs;
  of_int := float_of_int
|}.

End F64.

Module Rat.

Definition Qlt_bool (a b : Q) : bool := negb (Qle_bool b a).

#[export] Instance scalar : Scalar Q := {|
  zero := 0%Q;
  one := 1%Q;
  c02 := (2 # 10)%Q;
  add := Qplus;
  sub := Qminus;
  mul := Qmult;
  div := Qdiv;
  ltb := Qlt_bool;
  leb := Qle_bool;
  absv := Qabs;
  of_int := inject_Z
|}.

End Rat.

(** ** Python built-ins *)

(** A [dict] with [int] keys: the items in insertion order. *)
Definition dict (V : Type) : Type := list (Z * V).

Section Dict.
Context {V : Type}.

(** [d.get(k)] *)
Fixpoint dict_get (k : Z) (d : dict V) : option V :=
  match d with
  | [] => None
  | (k', v) :: d' => if k' =? k then Some v else dict_get k d'
  end.

(** [k in d] *)
Definition dict_mem (k : Z) (d : dict V) : bool :=
  match dict_get k d with Some _ => true | None => false end.

(** [d[k] = v]: an existing key keeps its position, a new one goes last. *)
Fixpoint dict_set (k : Z) (v : V) (d : dict V) : dict V :=
  match d with
  | [] => [(k, v)]
  | (k', v') :: d' =>
      if k' =? k then (k', v) :: d' else (k', v') :: dict_set k v d'
  end.

(** [d.get(k, default)] *)
Definition dict_get_default (k : Z) (default : V) (d : dict V) : V :=
  match dict_get k d with Some v => v | None => default end.

Definition dict_keys (d : dict V) : list Z := map fst d.
Definition dict_values (d : dict V) : list V := map snd d.

(** The invariant of every Python dict: keys are distinct. *)
Definition dict_ok (d : dict V) : Prop := NoDup (dict_keys d).

End Dict.

(** [{k: f(v) for k, v in d.items()}] *)
Definition dict_comprehension {V W} (f : V -> W) (d : dict V) : dict W :=
  fold_left (fun acc kv => dict_set (fst kv) (f (snd kv)) acc) d [].

Section Builtins.
Context {T : Type} `{Scalar T}.

(** [sum(xs)]: starts from 0 and adds from the left.  This is the built-in
    of CPython up to 3.11; from 3.12 on it carries a compensation term when
    the items are floats, which is zero in exact arithmetic and can change
    the last bits of a binary64 sum of three or more items. *)
Definition py_sum (xs : list T) : T := fold_left add xs zero.

(** [min(x :: xs)]: a later item replaces the current one only if smaller. *)
Definition py_min (x : T) (xs : list T) : T :=
  fold_left (fun m y => if ltb y m then y else m) xs x.

(** [max(x :: xs)]: a later item replaces the current one only if larger. *)
Definition py_max (x : T) (xs : list T) : T :=
  fold_left (fun m y => if gtb y m then y else m) xs x.

End Builtins.

(** ** Exceptions and stateful operations *)

Inductive exn : Type :=
| ValueError   (* DuplicateIdentifier, InvalidConfiguration *)
| KeyError.    (* UnknownAgent *)

Inductive result (A : Type) : Type :=
| Ok (a : A)
| Raise (e : exn).
Arguments Ok {A} a.
Arguments Raise {A} e.

(** A method of an object of type [S]: outcome and object afterwards. *)
Definition M (S A : Type) : Type := S -> result A * S.

Definition ret {S A} (a : A) : M S A := fun s => (Ok a, s).
Definition raise {S A} (e : exn) : M S A := fun s => (Raise e, s).
Definition bind {S A B} (m : M S A) (k : A -> M S B) : M S B :=
  fun s => match m s with
           | (Ok a, s') => k a s'
           | (Raise e, s') => (Raise e, s')
           end.
Definition get {S} : M S S := fun s => (Ok s, s).
Definition put {S} (s : S) : M S unit := fun _ => (Ok tt, s).

Declare Scope py_scope.
Delimit Scope py_scope with py.
Notation "x <- m ;; k" := (bind m (fun x => k))
  (at level 61, m at next level, right associativity) : py_scope.
Notation "m ;; k" := (bind m (fun _ => k))
  (at level 61, right associativity) : py_scope.
Local Open Scope py_scope.

(** [d[k]] as an expression: KeyError when the key is absent. *)
Definition subscript {S V} (d : dict V) (k : Z) : M S V :=
  match dict_get k d with
  | Some v => ret v
  | None => raise KeyError
  end.

(** A [for] loop over a list whose body may raise. *)
Fixpoint for_each {S A} (xs : list A) (body : A -> M S unit) : M S unit :=
  match xs with
  | [] => ret tt
  | x :: xs' => body x ;; for_each xs' body
  end.

(** A [for] loop that rebinds a local variable [acc] in its body. *)
Fixpoint for_fold {S A B} (xs : list A) (acc : B) (body : B -> A -> M S B)
  : M S B :=
  match xs with
  | [] => ret acc
  | x :: xs' => acc' <- body acc x ;; for_fold xs' acc' body
  end.

(** A list comprehension whose element expression may raise. *)
Fixpoint list_comprehension {S A B} (f : A -> M S B) (xs : list A)
  : M S (list B) :=
  match xs with
  | [] => ret []
  | x :: xs' => y <- f x ;; ys <- list_comprehension f xs' ;; ret (y :: ys)
  end.

(** ** Agent and Network *)

Section Model.
Context {T : Type} `{Scalar T}.

Record Agent : Type := mkAgent {
  agent_id : Z;
  value : T;
  neighbors : list Z
}.

(** [Agent.__init__] *)
Definition Agent_init (agent_id : Z) (value : T) : Agent :=
  mkAgent agent_id value [].

(** [Agent.update_value] *)
Definition update_value (ag : Agent) (new_value : T) : Agent :=
  mkAgent (agent_id ag) new_value (neighbors ag).

(** [ag.neighbors.append(n)] *)
Definition append_neighbor (ag : Agent) (n : Z) : Agent :=
  mkAgent (agent_id ag) (value ag) (neighbors ag ++ [n]).

Record Network : Type := mkNetwork {
  agents : dict Agent
}.

(** [Network.__init__] *)
Definition Network_init : Network := mkNetwork [].

(** [Network.add_agent] *)
Definition add_agent (agent_id : Z) (initial_value : T) : M Network unit :=
  net <- get ;;
  if dict_mem agent_id (agents net) then raise ValueError
  else put (mkNetwork
              (dict_set agent_id (Agent_init agent_id initial_value)
                        (agents net))).

(** [self.agents[a].neighbors.append(b)] *)
Definition append_to (a b : Z) : M Network unit :=
  net <- get ;;
  ag <- subscript (agents net) a ;;
  put (mkNetwork (dict_set a (append_neighbor ag b) (agents net))).

(** [Network.add_edge] *)
Definition add_edge (agent_id_a agent_id_b : Z) : M Network unit :=
  net <- get ;;
  if negb (dict_mem agent_id_a (agents net))
     || negb (dict_mem agent_id_b (agents net))
  then raise KeyError
  else append_to agent_id_a agent_id_b ;;
       append_to agent_id_b agent_id_a.

(** [Network.get_all_values] *)
Definition get_all_values (net : Network) : dict T :=
  dict_comprehension value (agents net).

(** ** ConsensusSimulation *)

Record ConsensusSimulation : Type := mkSim {
  network : Network;
  step_size : T;
  current_round : Z;
  _previous_values : dict T
}.

Definition set_agents (sim : ConsensusSimulation) (d : dict Agent)
  : ConsensusSimulation :=
  mkSim (mkNetwork d) (step_size sim) (current_round sim)
        (_previous_values sim).

Definition set_current_round (sim : ConsensusSimulation) (r : Z)
  : ConsensusSimulation :=
  mkSim (network sim) (step_size sim) r (_previous_values sim).

Definition set_previous_values (sim : ConsensusSimulation) (d : dict T)
  : ConsensusSimulation :=
  mkSim (network sim) (step_size sim) (current_round sim) d.

(** [ConsensusSimulation.__init__]: either the new object or the exception. *)
Definition ConsensusSimulation_init (network : Network) (step_size : T)
  : result ConsensusSimulation :=
  if negb (ltb zero step_size && leb step_size one) then Raise ValueError
  else Ok (mkSim network step_size 0 []).

(** [ConsensusSimulation.initialize_previous_values] *)
Definition initialize_previous_values : M ConsensusSimulation unit :=
  self <- get ;;
  put (set_previous_values self
         (dict_comprehension value (agents (network self)))).

(** [self.network.agents[n].value] *)
Definition neighbor_value (n : Z) : M ConsensusSimulation T :=
  self <- get ;;
  agn <- subscript (agents (network self)) n ;;
  ret (value agn).

(** The body of the first loop of [step], for one item of
    [self.network.agents.items()]. *)
Definition step_body (new_values : dict T) (item : Z * Agent)
  : M ConsensusSimulation (dict T) :=
  let (aid, ag) := item in
  match neighbors ag with
  | [] => ret (dict_set aid (value ag) new_values)
  | _ :: _ =>
      neighbor_values <- list_comprehension neighbor_value (neighbors ag) ;;
      self <- get ;;
      let average_local :=
        div (add (value ag) (py_sum neighbor_values))
            (of_int (1 + Z.of_nat (length neighbor_values))) in
      let updated_value :=
        add (value ag) (mul (step_size self) (sub average_local (value ag))) in
      ret (dict_set aid updated_value new_values)
  end.

(** The body of the second loop of [step]. *)
Definition apply_body (new_values : dict T) (aid : Z)
  : M ConsensusSimulation unit :=
  self <- get ;;
  ag <- subscript (agents (network self)) aid ;;
  v <- subscript new_values aid ;;
  put (set_agents self
         (dict_set aid (update_value ag v) (agents (network self)))).

(** [ConsensusSimulation.step] *)
Definition step : M ConsensusSimulation unit :=
  self <- get ;;
  new_values <- for_fold (agents (network self)) [] step_body ;;
  for_each (dict_keys new_values) (apply_body new_values) ;;
  self <- get ;;
  put (set_current_round self (current_round self + 1)).

(** The counting loop of [has_converged]. *)
Definition count_changed (epsilon : T) (previous : dict T)
    (items : dict Agent) : Z :=
  fold_left
    (fun changed item =>
       let old_v := dict_get_default (fst item) (value (snd item)) previous in
       if gtb (absv (sub (value (snd item)) old_v)) epsilon
       then changed + 1 else changed)
    items 0.

(** [ConsensusSimulation.has_converged] *)
Definition has_converged (epsilon : T) : M ConsensusSimulation bool :=
  self <- get ;;
  let all_values := map value (dict_values (agents (network self))) in
  match all_values with
  | [] => ret true
  | v :: vs =>
      let min_val := py_min v vs in
      let max_val := py_max v vs in
      if ltb (sub max_val min_val) epsilon then ret true
      else
        let changed :=
          count_changed epsilon (_previous_values self)
                        (agents (network self)) in
        put (set_previous_values self
               (dict_comprehension value (agents (network self)))) ;;
        self <- get ;;
        let len_agents := Z.of_nat (length (agents (network self))) in
        if 0 <? len_agents then
          let ratio := div (of_int changed) (of_int len_agents) in
          if ltb ratio c02 then ret true else ret false
        else ret false
  end.

(** The [for _ in range(n)] loop of [run]. *)
Fixpoint run_loop (n : nat) (epsilon : T) : M ConsensusSimulation unit :=
  match n with
  | O => ret tt
  | S n' =>
      step ;;
      converged <- has_converged epsilon ;;
      if converged then ret tt else run_loop n' epsilon
  end.

(** [ConsensusSimulation.run] *)
Definition run (max_rounds : Z) (epsilon : T) : M ConsensusSimulation Z :=
  initialize_previous_values ;;
  run_loop (Z.to_nat max_rounds) epsilon ;;
  self <- get ;;
  ret (current_round self).

End Model.

Arguments Agent T : clear implicits.
Arguments Network T : clear implicits.
Arguments ConsensusSimulation T : clear implicits.

Import F64 Rat.

(** ** The network of the test suite: 0 - 1 - 2 - 3 with values 0,10,20,30 *)

Definition line_network {T} `{Scalar T} : Network T :=
  snd ((add_agent 0 (of_int 0) ;; add_agent 1 (of_int 10) ;;
        add_agent 2 (of_int 20) ;; add_agent 3 (of_int 30) ;;
        add_edge 0 1 ;; add_edge 1 2 ;; add_edge 2 3) Network_init).

(** A new simulation over that network with the step size 0.5. *)
Definition line_sim {T} `{Scalar T} : ConsensusSimulation T :=
  mkSim line_network (div one (of_int 2)) 0 [].

(** The same network with the isolated agent 99 of value 999. *)
Definition isolated_sim {T} `{Scalar T} : ConsensusSimulation T :=
  mkSim (snd (add_agent 99 (of_int 999) line_network))
        (div one (of_int 2)) 0 [].

(** Three agents holding [v], each linked to the two others. *)
Definition uniform_network {T} `{Scalar T} (v : T) : Network T :=
  snd ((add_agent 0 v ;; add_agent 1 v ;; add_agent 2 v ;;
        add_edge 0 1 ;; add_edge 1 2 ;; add_edge 2 0) Network_init).

(** The same with the edge 0 - 1 added twice and a self-edge on 1. *)
Definition tangled_network {T} `{Scalar T} (v : T) : Network T :=
  snd ((add_edge 0 1 ;; add_edge 1 1) (uniform_network v)).

(** All values 0.1 on binary64, step size 1. *)
Definition triangle_sim : ConsensusSimulation float :=
  mkSim (uniform_network 0.1%float) 1%float 0 [].

(** All values 1/10 in exact arithmetic, step size 1/2. *)
Definition tangled_sim : ConsensusSimulation Q :=
  mkSim (tangled_network (1 # 10)%Q) (1 # 2)%Q 0 [].

(** Two linked agents holding 0 and 10, step size 1, exact arithmetic. *)
Definition pair_sim : ConsensusSimulation Q :=
  mkSim (snd ((add_agent 0 0%Q ;; add_agent 1 10%Q ;; add_edge 0 1)
                Network_init))
        1%Q 0 [].

(** A network edited behind the interface: the neighbor 5 of agent 0 was
    never added. *)
Definition broken_sim {T} `{Scalar T} : ConsensusSimulation T :=
  mkSim (mkNetwork [(0, mkAgent 0 (of_int 1) [5])]) (div one (of_int 2)) 0 [].

(** ** Well-formed states and specification-level notions *)

Section Notions.
Context {T : Type} `{Scalar T}.

(** What every network built with [add_agent] and [add_edge] satisfies:
    distinct keys, and every neighbor entry names an agent of the network. *)
Definition wf_network (net : Network T) : Prop :=
  dict_ok (agents net) /\
  forall aid ag n,
    In (aid, ag) (agents net) -> In n (neighbors ag) ->
    dict_mem n (agents net) = true.

Fixpoint distinctb (l : list Z) : bool :=
  match l with
  | [] => true
  | x :: l' => negb (existsb (Z.eqb x) l') && distinctb l'
  end.

(** [wf_network] as a check that can be run. *)
Definition wf_networkb (net : Network T) : bool :=
  distinctb (dict_keys (agents net)) &&
  forallb (fun kv =>
             forallb (fun n => dict_mem n (agents net)) (neighbors (snd kv)))
          (agents net).

(** The networks that calls of [add_agent] and [add_edge], failed ones
    included, build from the empty network. *)
Inductive built : Network T -> Prop :=
| built_init : built Network_init
| built_add_agent net aid v r net' :
    built net -> add_agent aid v net = (r, net') -> built net'
| built_add_edge net a b r net' :
    built net -> add_edge a b net = (r, net') -> built net'.

(** What two appends leave in the neighbor list of agent [x] after
    [add_edge a b]. *)
Definition with_edge (a b x : Z) (ag : Agent T) : Agent T :=
  mkAgent (agent_id ag) (value ag)
          (neighbors ag ++ (if x =? a then [b] else [])
                        ++ (if x =? b then [a] else [])).

(** The values of the agents named by [ns], in the order of [ns]. *)
Fixpoint lookup_values (d : dict (Agent T)) (ns : list Z) : option (list T) :=
  match ns with
  | [] => Some []
  | n :: ns' =>
      match dict_get n d, lookup_values d ns' with
      | Some agn, Some vs => Some (value agn :: vs)
      | _, _ => None
      end
  end.

(** The update rule applied to one agent, reading the values of [d]. *)
Definition new_value (d : dict (Agent T)) (alpha : T) (ag : Agent T)
  : option T :=
  match neighbors ag with
  | [] => Some (value ag)
  | _ :: _ =>
      match lookup_values d (neighbors ag) with
      | Some vs =>
          let average_local :=
            div (add (value ag) (py_sum vs))
                (of_int (1 + Z.of_nat (length vs))) in
          Some (add (value ag) (mul alpha (sub average_local (value ag))))
      | None => None
      end
  end.

Definition next_value (d : dict (Agent T)) (alpha : T) (ag : Agent T) : T :=
  match new_value d alpha ag with Some v => v | None => value ag end.

(** max(value) - min(value) over the agents; [None] for no agent. *)
Definition spread (net : Network T) : option T :=
  match map value (dict_values (agents net)) with
  | [] => None
  | v :: vs => Some (sub (py_max v vs) (py_min v vs))
  end.

(** Whether an item of the network moved by more than [epsilon] since the
    snapshot [previous]; an agent without entry stands in for itself. *)
Definition moved (epsilon : T) (previous : dict T) (item : Z * Agent T)
  : bool :=
  let old :=
    match dict_get (fst item) previous with
    | Some o => o
    | None => value (snd item)
    end in
  gtb (absv (sub (value (snd item)) old)) epsilon.

(** The convergence predicate as the specification words it. *)
Definition converged_spec (sim : ConsensusSimulation T) (epsilon : T) : bool :=
  match spread (network sim) with
  | None => true
  | Some sp =>
      if ltb sp epsilon then true
      else
        let changed_count :=
          Z.of_nat (length (filter (moved epsilon (_previous_values sim))
                                   (agents (network sim)))) in
        let total_agent_count :=
          Z.of_nat (length (agents (network sim))) in
        ltb (div (of_int changed_count) (of_int total_agent_count)) c02
  end.

(** [n] calls of [step] in a row. *)
Fixpoint steps (n : nat) : M (ConsensusSimulation T) unit :=
  match n with
  | O => ret tt
  | S n' => step ;; steps n'
  end.

(** [rounds epsilon budget s n s']: from [s], with [budget] iterations left,
    the loop of [run] executes exactly [n] rounds (a [step] followed by a
    convergence check) and stops in [s'], either because the check of round
    [n] answered true or because the budget is used up. *)
Inductive rounds (epsilon : T)
  : nat -> ConsensusSimulation T -> nat -> ConsensusSimulation T -> Prop :=
| rounds_budget s : rounds epsilon O s O s
| rounds_converged budget s s1 s2 :
    step s = (Ok tt, s1) ->
    has_converged epsilon s1 = (Ok true, s2) ->
    rounds epsilon (S budget) s 1 s2
| rounds_continue budget s s1 s2 n s3 :
    step s = (Ok tt, s1) ->
    has_converged epsilon s1 = (Ok false, s2) ->
    rounds epsilon budget s2 n s3 ->
    rounds epsilon (S budget) s (S n) s3.

End Notions.

(** ** Notions for the properties beyond the round contract *)

Section Callers.
Context {T : Type} `{Scalar T}.

(** A call of the construction interface of [Network]. *)
Inductive call : Type :=
| AddAgent (agent_id : Z) (initial_value : T)
| AddEdge (agent_id_a agent_id_b : Z).

Definition perform_call (c : call) : M (Network T) unit :=
  match c with
  | AddAgent aid v => add_agent aid v
  | AddEdge a b => add_edge a b
  end.

(** A caller that issues the calls in turn and goes on after a refused one
    (the network is then the one left by the refused call). *)
Fixpoint perform (cs : list call) (net : Network T) : Network T :=
  match cs with
  | [] => net
  | c :: cs' => perform cs' (snd (perform_call c net))
  end.

(** Every agent is registered under its own id. *)
Definition ids_match_keys (net : Network T) : Prop :=
  forall k ag, In (k, ag) (agents net) -> agent_id ag = k.

(** [b] occurs in the list of [a] as often as [a] in the list of [b]. *)
Definition symmetric (net : Network T) : Prop :=
  forall a b ag_a ag_b,
    dict_get a (agents net) = Some ag_a ->
    dict_get b (agents net) = Some ag_b ->
    count_occ Z.eq_dec (neighbors ag_a) b
    = count_occ Z.eq_dec (neighbors ag_b) a.

(** [symmetric] as a check that can be run. *)
Definition symmetricb (net : Network T) : bool :=
  forallb
    (fun p =>
       forallb
         (fun q =>
            Nat.eqb (count_occ Z.eq_dec (neighbors (snd p)) (fst q))
                    (count_occ Z.eq_dec (neighbors (snd q)) (fst p)))
         (agents net))
    (agents net).

(** The graph without the values: key, id and neighbor list of each agent. *)
Definition topology (net : Network T) : list (Z * (Z * list Z)) :=
  map (fun kv => (fst kv, (agent_id (snd kv), neighbors (snd kv))))
      (agents net).

(** Some neighbor entry names no agent of the network. *)
Definition dangling (net : Network T) : Prop :=
  exists aid ag n,
    In (aid, ag) (agents net) /\ In n (neighbors ag) /\
    dict_get n (agents net) = None.

(** The snapshot holds nothing that differs from the current values. *)
Definition snapshot_current (equal : T -> T -> Prop)
    (sim : ConsensusSimulation T) : Prop :=
  forall k ag,
    In (k, ag) (agents (network sim)) ->
    match dict_get k (_previous_values sim) with
    | Some old => equal old (value ag)
    | None => True
    end.

End Callers.

Section ExactNotions.
Local Open Scope Q_scope.

(** The sum of [f] over a list. *)
Definition qsum {A} (f : A -> Q) (l : list A) : Q :=
  fold_right (fun a acc => f a + acc) 0 l.

Definition degree (ag : Agent Q) : Q :=
  inject_Z (Z.of_nat (length (neighbors ag))).

(** The values weighted by one plus the number of neighbor entries. *)
Definition weighted_sum (net : Network Q) : Q :=
  qsum (fun kv => (1 + degree (snd kv)) * value (snd kv)) (agents net).

Definition total_weight (net : Network Q) : Q :=
  qsum (fun kv => 1 + degree (snd kv)) (agents net).

(** The value registered under [k], 0 when there is none. *)
Definition value_at (d : dict (Agent Q)) (k : Z) : Q :=
  match dict_get k d with Some ag => value ag | None => 0 end.

(** How often [k] occurs in a neighbor list, as a rational. *)
Definition occurrences (l : list Z) (k : Z) : Q :=
  inject_Z (Z.of_nat (count_occ Z.eq_dec l k)).

(** Every value lies between [lo] and [hi]. *)
Definition within (lo hi : Q) (net : Network Q) : Prop :=
  forall aid ag, In (aid, ag) (agents net) -> lo <= value ag <= hi.

(** Every value equals [v]. *)
Definition uniform (v : Q) (net : Network Q) : Prop :=
  forall aid ag, In (aid, ag) (agents net) -> value ag == v.

End ExactNotions.

(** * Properties *)

(** Split a conjunction without unfolding definitions. *)
Ltac splits := repeat match goal with |- _ /\ _ => split end.

(** Two outcomes of the same call are the same outcome. *)
Ltac same_call :=
  repeat match goal with
         | H1 : ?c = (_, _), H2 : ?c = (_, _) |- _ =>
             rewrite H1 in H2; inversion H2; subst; clear H2
         end.

(** ** Dictionaries *)

Section DictFacts.
Context {V : Type}.
Implicit Types (d : dict V) (k : Z) (v : V).

Lemma dict_get_set_same d k v : dict_get k (dict_set k v d) = Some v.
Proof.
  induction d as [|[k' v'] d IH]; simpl.
  - now rewrite Z.eqb_refl.
  - destruct (k' =? k) eqn:E; simpl; rewrite E; auto.
Qed.

Lemma dict_get_set_other d k k' v :
  k <> k' -> dict_get k' (dict_set k v d) = dict_get k' d.
Proof.
  intros Hne. induction d as [|[k0 v0] d IH]; simpl.
  - destruct (k =? k') eqn:E; auto. apply Z.eqb_eq in E. contradiction.
  - destruct (k0 =? k) eqn:E; simpl.
    + apply Z.eqb_eq in E. subst k0.
      destruct (k =? k') eqn:E'; auto. apply Z.eqb_eq in E'. contradiction.
    + now rewrite IH.
Qed.

Lemma dict_get_None d k : dict_get k d = None <-> ~ In k (dict_keys d).
Proof.
  induction d as [|[k' v'] d IH]; simpl.
  - tauto.
  - destruct (k' =? k) eqn:E.
    + apply Z.eqb_eq in E. split; [discriminate | intros Hn; exfalso; auto].
    + apply Z.eqb_neq in E. rewrite IH. tauto.
Qed.

Lemma dict_mem_true d k : dict_mem k d = true <-> In k (dict_keys d).
Proof.
  unfold dict_mem. destruct (dict_get k d) eqn:E.
  - split; auto. intros _.
    destruct (in_dec Z.eq_dec k (dict_keys d)) as [Hi|Hn]; auto.
    apply dict_get_None in Hn. congruence.
  - apply dict_get_None in E. split; [discriminate | contradiction].
Qed.

Lemma dict_mem_false d k : dict_mem k d = false <-> dict_get k d = None.
Proof.
  unfold dict_mem. destruct (dict_get k d); split; congruence.
Qed.

Lemma dict_set_absent d k v : dict_get k d = None -> dict_set k v d = d ++ [(k, v)].
Proof.
  induction d as [|[k' v'] d IH]; simpl; auto.
  destruct (k' =? k); [discriminate|]. intros E. now rewrite IH.
Qed.

Lemma dict_keys_set_present d k v :
  In k (dict_keys d) -> dict_keys (dict_set k v d) = dict_keys d.
Proof.
  induction d as [|[k' v'] d IH]; simpl; [tauto|].
  intros Hin. destruct (k' =? k) eqn:E; simpl; auto.
  apply Z.eqb_neq in E. destruct Hin as [->|Hin]; [congruence|].
  now rewrite IH.
Qed.

Lemma dict_get_app_r d1 d2 k :
  ~ In k (dict_keys d1) -> dict_get k (d1 ++ d2) = dict_get k d2.
Proof.
  induction d1 as [|[k' v'] d1 IH]; simpl; auto.
  intros Hn. destruct (k' =? k) eqn:E.
  - apply Z.eqb_eq in E. exfalso; auto.
  - auto.
Qed.

Lemma dict_set_app_r d1 d2 k v :
  ~ In k (dict_keys d1) -> dict_set k v (d1 ++ d2) = d1 ++ dict_set k v d2.
Proof.
  induction d1 as [|[k' v'] d1 IH]; simpl; auto.
  intros Hn. destruct (k' =? k) eqn:E.
  - apply Z.eqb_eq in E. exfalso; auto.
  - rewrite IH; auto.
Qed.

Lemma dict_get_In d k v : dict_ok d -> In (k, v) d -> dict_get k d = Some v.
Proof.
  unfold dict_ok. induction d as [|[k' v'] d IH]; simpl; [tauto|].
  intros Hnd [Heq|Hin]; inversion Hnd as [|? ? Hn Hnd']; subst.
  - inversion Heq; subst. now rewrite Z.eqb_refl.
  - destruct (k' =? k) eqn:E; auto.
    apply Z.eqb_eq in E. subst k'. exfalso. apply Hn.
    change k with (fst (k, v)). now apply in_map.
Qed.

Lemma dict_get_Some_In d k v : dict_get k d = Some v -> In (k, v) d.
Proof.
  induction d as [|[k' v'] d IH]; simpl; [discriminate|].
  destruct (k' =? k) eqn:E; auto.
  apply Z.eqb_eq in E. intros [= ->]. subst. auto.
Qed.

Lemma dict_set_In d k v k' v' :
  In (k', v') (dict_set k v d) -> (k', v') = (k, v) \/ In (k', v') d.
Proof.
  induction d as [|[k0 v0] d IH]; simpl.
  - intros [E|[]]; auto.
  - destruct (k0 =? k) eqn:E; simpl.
    + apply Z.eqb_eq in E. subst k0. intros [E'|Hin]; auto.
    + intros [E'|Hin]; auto. destruct (IH Hin); auto.
Qed.

End DictFacts.

(** Filling a dict from the items of another one copies its keys in order. *)
Lemma dict_build_map {V W} (g : Z * V -> W) (items : dict V) (acc : dict W) :
  NoDup (dict_keys acc ++ dict_keys items) ->
  fold_left (fun acc kv => dict_set (fst kv) (g kv) acc) items acc
  = acc ++ map (fun kv => (fst kv, g kv)) items.
Proof.
  revert acc. induction items as [|[k v] items IH]; intros acc Hnd; simpl.
  - now rewrite app_nil_r.
  - simpl in Hnd. rewrite dict_set_absent.
    + rewrite IH.
      * now rewrite <- app_assoc.
      * unfold dict_keys in *. rewrite map_app. simpl.
        rewrite <- app_assoc. exact Hnd.
    + apply dict_get_None. intros Hin.
      apply NoDup_remove_2 in Hnd. apply Hnd. apply in_or_app. auto.
Qed.

Lemma dict_comprehension_map {V W} (f : V -> W) (d : dict V) :
  dict_ok d ->
  dict_comprehension f d = map (fun kv => (fst kv, f (snd kv))) d.
Proof.
  intros Hok. unfold dict_comprehension.
  now rewrite (dict_build_map (fun kv => f (snd kv)) d []).
Qed.

Lemma dict_keys_map {V W} (g : Z * V -> W) (d : dict V) :
  dict_keys (map (fun kv => (fst kv, g kv)) d) = dict_keys d.
Proof.
  unfold dict_keys. rewrite map_map. now apply map_ext.
Qed.

Lemma dict_get_map {V W} (g : Z * V -> W) (d : dict V) (k : Z) :
  dict_get k (map (fun kv => (fst kv, g kv)) d)
  = match dict_get k d with Some v => Some (g (k, v)) | None => None end.
Proof.
  induction d as [|[k' v'] d IH]; simpl; auto.
  destruct (k' =? k) eqn:E; auto.
  apply Z.eqb_eq in E. now subst.
Qed.

(** ** Network *)

Section NetworkFacts.
Context {T : Type} `{Scalar T}.
Implicit Types (net : Network T) (ag : Agent T).

Lemma distinctb_NoDup (l : list Z) : distinctb l = true -> NoDup l.
Proof.
  induction l as [|x l IH]; simpl; [constructor|].
  intros Hb. apply andb_true_iff in Hb. destruct Hb as [Hx Hl].
  constructor; auto. intros Hin. apply negb_true_iff in Hx.
  assert (existsb (Z.eqb x) l = true); [|congruence].
  apply existsb_exists. exists x. split; auto. apply Z.eqb_refl.
Qed.

Lemma wf_networkb_sound net : wf_networkb net = true -> wf_network net.
Proof.
  unfold wf_networkb. intros Hb. apply andb_true_iff in Hb.
  destruct Hb as [Hd Hn]. split.
  - now apply distinctb_NoDup.
  - intros aid ag n Hin Hnb. rewrite forallb_forall in Hn.
    specialize (Hn _ Hin). rewrite forallb_forall in Hn. now apply Hn.
Qed.

Lemma wf_Network_init : wf_network (Network_init (T:=T)).
Proof.
  split; [constructor | intros ? ? ? []].
Qed.

Lemma add_agent_fresh net aid v :
  dict_mem aid (agents net) = false ->
  add_agent aid v net
  = (Ok tt, mkNetwork (agents net ++ [(aid, mkAgent aid v [])])).
Proof.
  intros Hm. unfold add_agent, bind, get, put. rewrite Hm.
  apply dict_mem_false in Hm. now rewrite dict_set_absent.
Qed.

Lemma add_agent_duplicate net aid v :
  dict_mem aid (agents net) = true ->
  add_agent aid v net = (Raise ValueError, net).
Proof.
  intros Hm. unfold add_agent, bind, get, raise. now rewrite Hm.
Qed.

Lemma append_to_present net a b ag :
  dict_get a (agents net) = Some ag ->
  append_to a b net
  = (Ok tt, mkNetwork (dict_set a (append_neighbor ag b) (agents net))).
Proof.
  intros Hg. unfold append_to, bind, get, put, subscript. now rewrite Hg.
Qed.

Lemma add_edge_unknown net a b :
  dict_mem a (agents net) = false \/ dict_mem b (agents net) = false ->
  add_edge a b net = (Raise KeyError, net).
Proof.
  intros Hm. unfold add_edge, bind, get, raise.
  destruct Hm as [-> | ->]; simpl; auto. now rewrite orb_true_r.
Qed.

Lemma add_edge_present net a b ag_a ag_b :
  dict_get a (agents net) = Some ag_a ->
  dict_get b (dict_set a (append_neighbor ag_a b) (agents net)) = Some ag_b ->
  add_edge a b net
  = (Ok tt,
     mkNetwork (dict_set b (append_neighbor ag_b a)
                  (dict_set a (append_neighbor ag_a b) (agents net)))).
Proof.
  intros Ha Hb. unfold add_edge, bind at 1, get.
  assert (Hma : dict_mem a (agents net) = true)
    by (unfold dict_mem; now rewrite Ha).
  assert (Hmb : dict_mem b (agents net) = true).
  { destruct (Z.eq_dec a b) as [<-|Hne]; auto.
    rewrite dict_get_set_other in Hb by auto.
    unfold dict_mem; now rewrite Hb. }
  rewrite Hma, Hmb. simpl. unfold bind.
  rewrite (@append_to_present net a b ag_a Ha).
  now rewrite (@append_to_present (mkNetwork _) b a ag_b Hb).
Qed.

Lemma wf_add_agent net aid v r net' :
  wf_network net -> add_agent aid v net = (r, net') -> wf_network net'.
Proof.
  intros [Hok Hnb] Hadd.
  destruct (dict_mem aid (agents net)) eqn:Hm.
  - rewrite add_agent_duplicate in Hadd by auto.
    inversion Hadd; subst. now split.
  - rewrite add_agent_fresh in Hadd by auto. inversion Hadd; subst; simpl.
    assert (Hn : ~ In aid (dict_keys (agents net))).
    { intros Hin. apply dict_mem_true in Hin. congruence. }
    split.
    + unfold dict_ok, dict_keys in *. cbn [agents]. rewrite map_app. simpl.
      apply NoDup_app; auto.
      * constructor; [intros [] | constructor].
      * intros x Hx [<-|[]]. contradiction.
    + intros k ag n Hin Hn'. apply dict_mem_true. cbn [agents] in *.
      unfold dict_keys. rewrite map_app. apply in_or_app.
      apply in_app_or in Hin. destruct Hin as [Hin|[E|[]]].
      * left. apply (dict_mem_true (agents net)). eauto.
      * inversion E; subst. simpl in Hn'. contradiction.
Qed.

Lemma wf_add_edge net a b r net' :
  wf_network net -> add_edge a b net = (r, net') -> wf_network net'.
Proof.
  intros [Hok Hnb] Hadd.
  destruct (dict_get a (agents net)) as [ag_a|] eqn:Ha.
  2:{ rewrite add_edge_unknown in Hadd by (left; now apply dict_mem_false).
      inversion Hadd; subst. now split. }
  destruct (dict_get b (dict_set a (append_neighbor ag_a b) (agents net)))
    as [ag_b|] eqn:Hb.
  2:{ rewrite add_edge_unknown in Hadd.
      - inversion Hadd; subst. now split.
      - right. apply dict_mem_false.
        destruct (Z.eq_dec a b) as [<-|Hne].
        + rewrite dict_get_set_same in Hb. discriminate.
        + now rewrite dict_get_set_other in Hb by auto. }
  rewrite (add_edge_present net a b Ha Hb) in Hadd.
  inversion Hadd; subst; clear Hadd.
  assert (Hina : In a (dict_keys (agents net))).
  { apply dict_mem_true. unfold dict_mem. now rewrite Ha. }
  assert (Hk1 : dict_keys (dict_set a (append_neighbor ag_a b) (agents net))
                = dict_keys (agents net))
    by now apply dict_keys_set_present.
  assert (Hinb : In b (dict_keys (agents net))).
  { rewrite <- Hk1. apply dict_mem_true. unfold dict_mem. now rewrite Hb. }
  assert (Hk2 : dict_keys
                  (dict_set b (append_neighbor ag_b a)
                     (dict_set a (append_neighbor ag_a b) (agents net)))
                = dict_keys (agents net)).
  { rewrite dict_keys_set_present; auto. now rewrite Hk1. }
  assert (Hclosed : forall k ag n,
             (k, ag) = (a, append_neighbor ag_a b) \/ In (k, ag) (agents net) ->
             In n (neighbors ag) -> In n (dict_keys (agents net))).
  { intros k ag n [E|Hin] Hn.
    - inversion E; subst. simpl in Hn. apply in_app_or in Hn.
      destruct Hn as [Hn|[<-|[]]]; auto.
      apply dict_mem_true. eapply Hnb; eauto using dict_get_Some_In.
    - apply dict_mem_true. eauto. }
  split; cbn [agents].
  - unfold dict_ok. now rewrite Hk2.
  - intros k ag n Hin Hn. apply dict_mem_true. rewrite Hk2.
    apply dict_set_In in Hin. destruct Hin as [E|Hin].
    + inversion E; subst. simpl in Hn. apply in_app_or in Hn.
      destruct Hn as [Hn|[<-|[]]]; auto.
      apply dict_get_Some_In, dict_set_In in Hb. eauto.
    + apply dict_set_In in Hin. eauto.
Qed.

(** Every network built through the interface is well formed. *)
Lemma built_wf net : built net -> wf_network net.
Proof.
  induction 1; eauto using wf_Network_init, wf_add_agent, wf_add_edge.
Qed.

(** C6. [add_agent] on an unused id appends a new agent with the given value
    and no neighbor, leaving every other entry as it was; on an id in use it
    raises ValueError (DuplicateIdentifier) and the network afterwards is the
    network before, so the agent registered under that id keeps its value. *)
Theorem add_agent_spec net aid v :
  (dict_get aid (agents net) = None ->
   exists net',
     add_agent aid v net = (Ok tt, net') /\
     agents net' = agents net ++ [(aid, mkAgent aid v [])] /\
     dict_get aid (agents net') = Some (mkAgent aid v []) /\
     forall k, k <> aid -> dict_get k (agents net') = dict_get k (agents net))
  /\
  (forall ag, dict_get aid (agents net) = Some ag ->
   add_agent aid v net = (Raise ValueError, net)).
Proof.
  split.
  - intros Hg. exists (mkNetwork (agents net ++ [(aid, mkAgent aid v [])])).
    split; [|split; [reflexivity|]].
    + apply add_agent_fresh. now apply dict_mem_false.
    + cbn [agents]. rewrite <- (@dict_set_absent _ (agents net) aid (mkAgent aid v []) Hg). split.
      * apply dict_get_set_same.
      * intros k Hk. apply dict_get_set_other. auto.
  - intros ag Hg. apply add_agent_duplicate. unfold dict_mem. now rewrite Hg.
Qed.

(** C7. [add_edge a b] raises KeyError (UnknownAgent) when an id is absent,
    and the network afterwards is the network before.  When both are
    present it succeeds, keeps keys, ids and values, and appends [b] at the
    end of [a]'s list and then [a] at the end of [b]'s list, whatever these
    lists already hold; for [a = b] the one list receives both entries. *)
Theorem add_edge_spec net a b :
  (dict_get a (agents net) = None \/ dict_get b (agents net) = None ->
   add_edge a b net = (Raise KeyError, net))
  /\
  (dict_get a (agents net) <> None -> dict_get b (agents net) <> None ->
   exists net',
     add_edge a b net = (Ok tt, net') /\
     dict_keys (agents net') = dict_keys (agents net) /\
     forall x,
       dict_get x (agents net')
       = option_map (with_edge a b x) (dict_get x (agents net))).
Proof.
  split.
  - intros Hg. apply add_edge_unknown.
    destruct Hg as [Hg|Hg]; [left|right]; now apply dict_mem_false.
  - intros Ha Hb.
    destruct (dict_get a (agents net)) as [ag_a|] eqn:Ea; [|congruence].
    destruct (dict_get b (agents net)) as [ag_b|] eqn:Eb; [|congruence].
    clear Ha Hb.
    set (d1 := dict_set a (append_neighbor ag_a b) (agents net)).
    assert (Hb1 : exists ag_b', dict_get b d1 = Some ag_b' /\
              ag_b' = if a =? b then append_neighbor ag_a b else ag_b).
    { unfold d1. destruct (a =? b) eqn:E.
      - apply Z.eqb_eq in E. subst b. rewrite dict_get_set_same. eauto.
      - apply Z.eqb_neq in E. rewrite dict_get_set_other by auto. eauto. }
    destruct Hb1 as (ag_b' & Hb1 & Hb2).
    eexists. split; [apply (add_edge_present net a b Ea Hb1)|].
    cbn [agents]. fold d1.
    assert (Hina : In a (dict_keys (agents net))).
    { apply dict_mem_true. unfold dict_mem. now rewrite Ea. }
    assert (Hk1 : dict_keys d1 = dict_keys (agents net))
      by now apply dict_keys_set_present.
    split.
    + rewrite dict_keys_set_present; auto. rewrite Hk1.
      apply dict_mem_true. unfold dict_mem. now rewrite Eb.
    + intros x. unfold with_edge.
      destruct (Z.eq_dec b x) as [<-|Hbx].
      * rewrite dict_get_set_same, Eb, Z.eqb_refl. simpl. subst ag_b'.
        rewrite (Z.eqb_sym b a).
        destruct (a =? b) eqn:E; unfold append_neighbor; simpl.
        -- apply Z.eqb_eq in E. subst b.
           assert (ag_b = ag_a) by congruence. subst.
           now rewrite <- app_assoc.
        -- reflexivity.
      * rewrite dict_get_set_other by auto. unfold d1.
        assert (Exb : (x =? b) = false) by (apply Z.eqb_neq; auto).
        rewrite Exb.
        destruct (Z.eq_dec a x) as [<-|Hax].
        -- rewrite dict_get_set_same, Ea, Z.eqb_refl. simpl.
           unfold append_neighbor. now rewrite ?app_nil_r.
        -- rewrite dict_get_set_other by auto.
           assert (Exa : (x =? a) = false) by (apply Z.eqb_neq; auto).
           rewrite Exa. simpl. destruct (dict_get x (agents net)) as [[i w l]|];
             simpl; auto. now rewrite ?app_nil_r.
Qed.

End NetworkFacts.

(** ** One round *)

Section StepFacts.
Context {T : Type} `{Scalar T}.
Implicit Types (s : ConsensusSimulation T) (ag : Agent T) (d : dict (Agent T)).

Lemma neighbor_values_eq ns s :
  list_comprehension neighbor_value ns s
  = match lookup_values (agents (network s)) ns with
    | Some vs => (Ok vs, s)
    | None => (Raise KeyError, s)
    end.
Proof.
  induction ns as [|n ns IH]; simpl; auto.
  unfold neighbor_value at 1. unfold bind, get, subscript, ret, raise.
  destruct (dict_get n (agents (network s))) as [agn|]; simpl; auto.
  rewrite IH. now destruct (lookup_values (agents (network s)) ns).
Qed.

Lemma step_body_eq nv aid ag s :
  step_body nv (aid, ag) s
  = match new_value (agents (network s)) (step_size s) ag with
    | Some v => (Ok (dict_set aid v nv), s)
    | None => (Raise KeyError, s)
    end.
Proof.
  unfold step_body, new_value. destruct (neighbors ag) as [|n ns] eqn:E; auto.
  unfold bind at 1. rewrite neighbor_values_eq.
  now destruct (lookup_values (agents (network s)) (n :: ns)).
Qed.

Lemma lookup_values_total d ns :
  (forall n, In n ns -> dict_mem n d = true) ->
  exists vs, lookup_values d ns = Some vs.
Proof.
  induction ns as [|n ns IH]; simpl; intros Hin; eauto.
  destruct IH as [vs ->]; auto.
  specialize (Hin n (or_introl eq_refl)). unfold dict_mem in Hin.
  destruct (dict_get n d); [eauto | discriminate].
Qed.

Lemma lookup_values_Forall2 d ns vs :
  lookup_values d ns = Some vs ->
  Forall2 (fun n v => exists agn, dict_get n d = Some agn /\ value agn = v)
          ns vs.
Proof.
  revert vs. induction ns as [|n ns IH]; simpl; intros vs.
  - intros [= <-]. constructor.
  - destruct (dict_get n d) as [agn|] eqn:E; [|discriminate].
    destruct (lookup_values d ns) as [vs'|]; [|discriminate].
    intros [= <-]. constructor; eauto.
Qed.

Lemma new_value_total (net : Network T) alpha aid ag :
  wf_network net -> In (aid, ag) (agents net) ->
  new_value (agents net) alpha ag <> None.
Proof.
  intros [_ Hnb] Hin. unfold new_value.
  destruct (neighbors ag) as [|n ns] eqn:E; [discriminate|].
  destruct (lookup_values_total (agents net) (n :: ns)) as [vs ->];
    [|discriminate].
  intros m Hm. apply (Hnb aid ag); auto. now rewrite E.
Qed.

(** The first loop of [step] reads the state and never writes it. *)
Lemma compute_loop items acc s :
  (forall item, In item items ->
     new_value (agents (network s)) (step_size s) (snd item) <> None) ->
  for_fold items acc step_body s
  = (Ok (fold_left
           (fun acc kv =>
              dict_set (fst kv)
                (next_value (agents (network s)) (step_size s) (snd kv)) acc)
           items acc), s).
Proof.
  revert acc. induction items as [|[aid ag] items IH]; intros acc Hdef; auto.
  cbn [for_fold fold_left]. unfold bind at 1. rewrite step_body_eq.
  cbn [fst snd]. unfold next_value at 2.
  destruct (new_value (agents (network s)) (step_size s) ag) eqn:E.
  - apply IH. intros item Hin. apply Hdef. now right.
  - exfalso. apply (Hdef (aid, ag)); simpl; auto.
Qed.

(** The second loop of [step] overwrites the values one agent at a time. *)
Lemma apply_loop (g : Z * Agent T -> T) nv todo done s :
  agents (network s) = done ++ todo ->
  dict_ok (done ++ todo) ->
  (forall kv, In kv todo -> dict_get (fst kv) nv = Some (g kv)) ->
  for_each (dict_keys todo) (apply_body nv) s
  = (Ok tt,
     set_agents s
       (done ++ map (fun kv => (fst kv, update_value (snd kv) (g kv))) todo)).
Proof.
  revert done s. induction todo as [|[k ag] todo IH]; intros done s Hs Hok Hnv.
  - simpl. unfold ret, set_agents. rewrite <- Hs. now destruct s as [[?] ? ? ?].
  - simpl. unfold bind at 1.
    assert (Hk : ~ In k (dict_keys done)).
    { unfold dict_ok, dict_keys in *. rewrite map_app in Hok. simpl in Hok.
      apply NoDup_remove_2 in Hok. intros Hin. apply Hok.
      apply in_or_app. now left. }
    unfold apply_body at 1. unfold bind, get, subscript, put. rewrite Hs.
    rewrite dict_get_app_r by auto. simpl. rewrite Z.eqb_refl. simpl.
    pose proof (Hnv (k, ag) (or_introl eq_refl)) as Hg. simpl in Hg.
    rewrite Hg. unfold ret. 
    rewrite dict_set_app_r by auto. simpl. rewrite Z.eqb_refl.
    rewrite (IH (done ++ [(k, update_value ag (g (k, ag)))])).
    + unfold set_agents. simpl. now rewrite <- app_assoc.
    + simpl. now rewrite <- app_assoc.
    + unfold dict_ok, dict_keys in *. rewrite <- app_assoc. simpl.
      rewrite map_app in *. exact Hok.
    + intros kv Hin. apply Hnv. now right.
Qed.

(** [step] in closed form: every value is replaced by the update rule
    evaluated in the state before the call. *)
Lemma step_eq s :
  wf_network (network s) ->
  step s
  = (Ok tt,
     mkSim (mkNetwork
              (map (fun kv =>
                      (fst kv,
                       update_value (snd kv)
                         (next_value (agents (network s)) (step_size s)
                                     (snd kv))))
                   (agents (network s))))
           (step_size s) (current_round s + 1) (_previous_values s)).
Proof.
  intros Hwf. pose proof Hwf as [Hok _].
  unfold step. unfold bind at 1. unfold get at 1.
  unfold bind at 1. rewrite compute_loop.
  2:{ intros [aid ag] Hin. simpl. eapply new_value_total; eauto. }
  rewrite (dict_build_map
             (fun kv => next_value (agents (network s)) (step_size s) (snd kv)))
    by (simpl; exact Hok).
  simpl app. unfold bind at 1. rewrite dict_keys_map.
  rewrite (apply_loop
             (fun kv => next_value (agents (network s)) (step_size s) (snd kv))
             _ (agents (network s)) [] s); auto.
  intros [k ag] Hin. rewrite dict_get_map. simpl.
  now rewrite (@dict_get_In _ _ k ag Hok Hin).
Qed.

Lemma wf_revalued (net : Network T) (g : Z * Agent T -> T) :
  wf_network net ->
  wf_network
    (mkNetwork
       (map (fun kv => (fst kv, update_value (snd kv) (g kv))) (agents net))).
Proof.
  intros [Hok Hnb]. split; cbn [agents].
  - unfold dict_ok. now rewrite dict_keys_map.
  - intros aid ag n Hin Hn. apply dict_mem_true. rewrite dict_keys_map.
    apply in_map_iff in Hin. destruct Hin as ([k ag0] & E & Hin).
    inversion E; subst. apply dict_mem_true. eauto.
Qed.

Lemma wf_step s r s' :
  wf_network (network s) -> step s = (r, s') -> wf_network (network s').
Proof.
  intros Hwf Hstep. rewrite step_eq in Hstep by auto.
  inversion Hstep; subst. cbn [network]. now apply wf_revalued.
Qed.

(** C1. On a well-formed network [step] succeeds; afterwards every agent has
    its id and neighbor list as before and the value
    [value + step_size * (local_average - value)], where
    [local_average = (value + S) / (1 + n)], [S] the sum (added from the
    left, starting from 0) and [n] the count of the values that the entries
    of its neighbor list, read in list order with repetitions, had before
    the call; an agent without neighbor keeps its value.  All values read are those of the state before the call, and
    [current_round] grows by one; nothing else changes. *)
Theorem step_spec s :
  wf_network (network s) ->
  exists s',
    step s = (Ok tt, s') /\
    current_round s' = current_round s + 1 /\
    step_size s' = step_size s /\
    _previous_values s' = _previous_values s /\
    dict_keys (agents (network s')) = dict_keys (agents (network s)) /\
    forall aid ag,
      dict_get aid (agents (network s)) = Some ag ->
      exists updated,
        dict_get aid (agents (network s'))
        = Some (mkAgent (agent_id ag) updated (neighbors ag)) /\
        (neighbors ag = [] -> updated = value ag) /\
        (neighbors ag <> [] ->
         exists vals,
           Forall2
             (fun n v =>
                exists agn,
                  dict_get n (agents (network s)) = Some agn /\
                  value agn = v)
             (neighbors ag) vals /\
           let S := fold_left add vals zero in
           let n := Z.of_nat (length vals) in
           let local_average := div (add (value ag) S) (of_int (1 + n)) in
           updated
           = add (value ag)
                 (mul (step_size s) (sub local_average (value ag)))).
Proof.
  intros Hwf. eexists. split; [apply step_eq; auto|].
  cbn [network agents current_round step_size _previous_values].
  repeat split; auto.
  - apply dict_keys_map with
      (g := fun kv => update_value (snd kv)
                        (next_value (agents (network s)) (step_size s)
                                    (snd kv))).
  - intros aid ag Hg.
    rewrite (dict_get_map
               (fun kv => update_value (snd kv)
                            (next_value (agents (network s)) (step_size s)
                                        (snd kv)))).
    rewrite Hg. cbn [snd]. unfold update_value.
    eexists. split; [reflexivity|].
    pose proof (@new_value_total (network s) (step_size s) aid ag Hwf
                                 (dict_get_Some_In _ _ Hg)) as Hdef.
    unfold next_value. unfold new_value in *.
    destruct (neighbors ag) as [|n ns] eqn:En.
    + split; [reflexivity | congruence].
    + split; [discriminate|]. intros _.
      destruct (lookup_values (agents (network s)) (n :: ns)) as [vs|] eqn:El;
        [|congruence].
      exists vs. split; [now apply lookup_values_Forall2 | reflexivity].
Qed.

End StepFacts.

(** ** The convergence check *)

Section ConvergenceFacts.
Context {T : Type} `{Scalar T}.
Implicit Types (s : ConsensusSimulation T) (epsilon : T).

Lemma count_changed_filter epsilon previous (items : dict (Agent T)) :
  count_changed epsilon previous items
  = Z.of_nat (length (filter (moved epsilon previous) items)).
Proof.
  unfold count_changed.
  assert (Hgen : forall c,
    fold_left
      (fun changed item =>
         let old_v :=
           dict_get_default (fst item) (value (snd item)) previous in
         if gtb (absv (sub (value (snd item)) old_v)) epsilon
         then changed + 1 else changed) items c
    = c + Z.of_nat (length (filter (moved epsilon previous) items))).
  { induction items as [|item items IH]; intros c; simpl.
    - lia.
    - rewrite IH. unfold moved at 2, dict_get_default.
      destruct (gtb _ epsilon); simpl length; lia. }
  now rewrite Hgen.
Qed.

(** [has_converged] in closed form: its answer and the state it leaves. *)
Lemma has_converged_eq epsilon s :
  has_converged epsilon s
  = (Ok (converged_spec s epsilon),
     match spread (network s) with
     | None => s
     | Some sp =>
         if ltb sp epsilon then s
         else set_previous_values s (get_all_values (network s))
     end).
Proof.
  unfold has_converged, converged_spec, spread, get_all_values.
  unfold bind at 1. unfold get at 1.
  destruct (agents (network s)) as [|[k ag] items] eqn:E; [reflexivity|].
  cbn [dict_values map snd].
  destruct (ltb (sub (py_max (value ag) (map value (map snd items)))
                     (py_min (value ag) (map value (map snd items))))
                epsilon); [reflexivity|].
  unfold bind, put, get. cbn [network set_previous_values agents].
  rewrite E. rewrite count_changed_filter.
  replace (0 <? Z.of_nat (length ((k, ag) :: items))) with true
    by (symmetry; apply Z.ltb_lt; simpl length; lia).
  now destruct (ltb _ c02).
Qed.

(** C9. [has_converged] leaves the network (every value, every neighbor
    list), the step size and the round counter as they are.  The snapshot
    is left alone when the network is empty or the spread is below
    [epsilon]; in every other case, whatever the answer, it becomes the
    current id -> value mapping of the whole network. *)
Theorem has_converged_frame epsilon s :
  dict_ok (agents (network s)) ->
  exists answer s',
    has_converged epsilon s = (Ok answer, s') /\
    network s' = network s /\
    step_size s' = step_size s /\
    current_round s' = current_round s /\
    match spread (network s) with
    | None => _previous_values s' = _previous_values s
    | Some sp =>
        if ltb sp epsilon then _previous_values s' = _previous_values s
        else
          _previous_values s' = get_all_values (network s) /\
          dict_keys (_previous_values s') = dict_keys (agents (network s)) /\
          forall aid,
            dict_get aid (_previous_values s')
            = option_map value (dict_get aid (agents (network s)))
    end.
Proof.
  intros Hok. do 2 eexists. split; [apply has_converged_eq|].
  destruct (spread (network s)) as [sp|]; [|auto].
  destruct (ltb sp epsilon); [auto|].
  cbn [network step_size current_round _previous_values set_previous_values].
  repeat split; auto.
  - unfold get_all_values. rewrite dict_comprehension_map by auto.
    apply dict_keys_map with (g := fun kv => value (snd kv)).
  - intros aid. unfold get_all_values.
    rewrite dict_comprehension_map by auto.
    rewrite (dict_get_map (fun kv => value (snd kv))).
    now destruct (dict_get aid (agents (network s))).
Qed.

Lemma has_converged_network epsilon s r s' :
  has_converged epsilon s = (r, s') ->
  network s' = network s /\ current_round s' = current_round s /\
  step_size s' = step_size s.
Proof.
  rewrite has_converged_eq. intros [= _ <-].
  destruct (spread (network s)) as [sp|]; auto.
  destruct (ltb sp epsilon); auto.
Qed.

End ConvergenceFacts.

(** ** The run loop *)

Section RunFacts.
Context {T : Type} `{Scalar T}.
Implicit Types (s : ConsensusSimulation T) (epsilon : T).

Lemma initialize_previous_values_eq s :
  initialize_previous_values s
  = (Ok tt, set_previous_values s (get_all_values (network s))).
Proof. reflexivity. Qed.

(** The loop is deterministic: [rounds] relates a start to one outcome. *)
Lemma rounds_functional epsilon budget s n s' m s'' :
  rounds epsilon budget s n s' -> rounds epsilon budget s m s'' ->
  n = m /\ s' = s''.
Proof.
  intros Hr. revert m s''.
  induction Hr as [s | budget s s1 s2 Hs Hc | budget s s1 s2 n s3 Hs Hc Hr IH];
    intros m s'' Hr'; inversion Hr'; subst; same_call; auto.
  match goal with
  | Hr2 : rounds _ _ _ _ _ |- _ => destruct (IH _ _ Hr2); subst; auto
  end.
Qed.

Lemma step_round s :
  wf_network (network s) ->
  exists s1, step s = (Ok tt, s1) /\
             wf_network (network s1) /\
             current_round s1 = current_round s + 1.
Proof.
  intros Hwf. eexists. split; [apply step_eq; auto|]. split.
  - cbn [network]. now apply wf_revalued.
  - reflexivity.
Qed.

(** The loop of [run] never raises on a well-formed network, and [rounds]
    describes what it does. *)
Lemma run_loop_rounds epsilon budget s :
  wf_network (network s) ->
  exists n s',
    rounds epsilon budget s n s' /\
    run_loop budget epsilon s = (Ok tt, s') /\
    (n <= budget)%nat /\
    (0 < budget -> 0 < n)%nat /\
    current_round s' = current_round s + Z.of_nat n /\
    wf_network (network s').
Proof.
  revert s. induction budget as [|budget IH]; intros s Hwf.
  - exists O, s. splits; auto; try lia. constructor.
  - destruct (step_round s Hwf) as (s1 & Hs & Hwf1 & Hr1).
    destruct (has_converged epsilon s1) as [r s2] eqn:Hc.
    assert (Hr : r = Ok (converged_spec s1 epsilon))
      by (rewrite has_converged_eq in Hc; now inversion Hc).
    subst r.
    destruct (has_converged_network _ _ Hc) as (Hn & Hcr & _).
    cbn [run_loop]. unfold bind at 1. rewrite Hs.
    unfold bind at 1. rewrite Hc.
    destruct (converged_spec s1 epsilon) eqn:Hb.
    + exists 1%nat, s2. splits; try lia.
      * eapply rounds_converged; eauto.
      * reflexivity.
      * now rewrite Hn.
    + assert (Hwf2 : wf_network (network s2)) by now rewrite Hn.
      destruct (IH s2 Hwf2) as (n & s3 & Hrs & Hl & Hle & _ & Hcr3 & Hwf3).
      exists (S n), s3. splits; auto; try lia.
      eapply rounds_continue; eauto.
Qed.

(** A property of the network that [step] preserves holds after the loop. *)
Lemma rounds_invariant (P : Network T -> Prop) epsilon budget s n s' :
  (forall s0 s1, P (network s0) -> step s0 = (Ok tt, s1) -> P (network s1)) ->
  rounds epsilon budget s n s' -> P (network s) -> P (network s').
Proof.
  intros Hstep.
  induction 1 as [s | budget s s1 s2 Hs Hc | budget s s1 s2 n s3 Hs Hc Hr IH];
    intros HP; auto.
  - apply has_converged_network in Hc. destruct Hc as (-> & _). eauto.
  - apply IH. apply has_converged_network in Hc. destruct Hc as (-> & _).
    eauto.
Qed.

(** [run] is the snapshot, the loop, and the read of the counter. *)
Lemma run_rounds max_rounds epsilon s :
  wf_network (network s) ->
  exists n s',
    rounds epsilon (Z.to_nat max_rounds)
           (set_previous_values s (get_all_values (network s))) n s' /\
    run max_rounds epsilon s = (Ok (current_round s + Z.of_nat n), s') /\
    current_round s' = current_round s + Z.of_nat n /\
    (n <= Z.to_nat max_rounds)%nat /\
    (0 < Z.to_nat max_rounds -> 0 < n)%nat.
Proof.
  intros Hwf.
  destruct (@run_loop_rounds epsilon (Z.to_nat max_rounds)
              (set_previous_values s (get_all_values (network s))) Hwf)
    as (n & s' & Hrs & Hl & Hle & Hpos & Hcr & _).
  cbn [current_round set_previous_values] in Hcr.
  exists n, s'. splits; auto.
  unfold run. unfold bind at 1. rewrite initialize_previous_values_eq.
  unfold bind at 1. rewrite Hl. unfold bind, get, ret. now rewrite Hcr.
Qed.

Lemma ConsensusSimulation_init_Ok (net : Network T) alpha s :
  ConsensusSimulation_init net alpha = Ok s -> s = mkSim net alpha 0 [].
Proof.
  unfold ConsensusSimulation_init.
  destruct (negb _); [discriminate|]. now intros [= <-].
Qed.

(** C4. [run] first stores as snapshot the value of every agent under its
    key, in the order of the network, then lets the loop execute rounds,
    each a [step] followed by a convergence check, until a check answers
    true or [max_rounds] rounds are done; it returns the round counter,
    which has grown by one per executed round, hence the number of executed
    rounds on a new simulation, whose counter is 0. *)
Theorem run_spec max_rounds epsilon s :
  wf_network (network s) ->
  exists n s',
    rounds epsilon (Z.to_nat max_rounds)
           (mkSim (network s) (step_size s) (current_round s)
                  (map (fun kv => (fst kv, value (snd kv)))
                       (agents (network s))))
           n s' /\
    run max_rounds epsilon s = (Ok (current_round s + Z.of_nat n), s') /\
    current_round s' = current_round s + Z.of_nat n /\
    (n <= Z.to_nat max_rounds)%nat /\
    forall net alpha,
      ConsensusSimulation_init net alpha = Ok s ->
      current_round s = 0 /\
      run max_rounds epsilon s = (Ok (Z.of_nat n), s').
Proof.
  intros Hwf.
  destruct (run_rounds max_rounds epsilon s Hwf)
    as (n & s' & Hrs & Hrun & Hcr & Hle & _).
  exists n, s'. splits; auto.
  - unfold set_previous_values, get_all_values in Hrs.
    rewrite dict_comprehension_map in Hrs by apply Hwf. exact Hrs.
  - intros net alpha Hinit. rewrite Hrun.
    apply ConsensusSimulation_init_Ok in Hinit. now subst.
Qed.

Lemma step_keeps_isolated s s1 aid ag :
  wf_network (network s) ->
  dict_get aid (agents (network s)) = Some ag -> neighbors ag = [] ->
  step s = (Ok tt, s1) ->
  wf_network (network s1) /\ dict_get aid (agents (network s1)) = Some ag.
Proof.
  intros Hwf Hg Hn Hs. split; [eapply wf_step; eauto|].
  rewrite step_eq in Hs by auto. inversion Hs; subst; clear Hs.
  cbn [network agents].
  rewrite (dict_get_map
             (fun kv => update_value (snd kv)
                          (next_value (agents (network s)) (step_size s)
                                      (snd kv)))).
  rewrite Hg. cbn [snd]. unfold next_value, new_value. rewrite Hn.
  destruct ag as [i v l]. simpl in *. now subst.
Qed.

(** C8. An agent whose neighbor list is empty is, after any number of
    consecutive [step] calls and after a whole [run] with any round budget
    and tolerance, the very agent it was: same value, same (empty) list. *)
Theorem isolated_agent_unchanged s aid ag :
  wf_network (network s) ->
  dict_get aid (agents (network s)) = Some ag ->
  neighbors ag = [] ->
  (forall n, exists s',
      steps n s = (Ok tt, s') /\
      dict_get aid (agents (network s')) = Some ag) /\
  (forall max_rounds epsilon, exists r s',
      run max_rounds epsilon s = (Ok r, s') /\
      dict_get aid (agents (network s')) = Some ag).
Proof.
  intros Hwf Hg Hn. split.
  - intros n. revert s Hwf Hg. induction n as [|n IH]; intros s Hwf Hg.
    + exists s. now split.
    + destruct (step_round s Hwf) as (s1 & Hs & _ & _).
      destruct (@step_keeps_isolated s s1 aid ag Hwf Hg Hn Hs) as [Hwf1 Hg1].
      destruct (IH s1 Hwf1 Hg1) as (s' & Hst & Hg').
      exists s'. split; auto. cbn [steps]. unfold bind. now rewrite Hs.
  - intros max_rounds epsilon.
    destruct (run_rounds max_rounds epsilon s Hwf) as (n & s' & Hr & Hrun & _).
    exists (current_round s + Z.of_nat n), s'. split; auto.
    apply (rounds_invariant
             (fun net => wf_network net /\ dict_get aid (agents net) = Some ag))
      in Hr.
    + apply Hr.
    + intros s0 s1 [Hwf0 Hg0] Hs. eapply step_keeps_isolated; eauto.
    + now split.
Qed.

(** When the check after the first round answers true, one round runs. *)
Lemma rounds_first_converged epsilon budget s s1 n s' :
  step s = (Ok tt, s1) -> converged_spec s1 epsilon = true ->
  rounds epsilon (S budget) s n s' ->
  n = 1%nat /\ network s' = network s1.
Proof.
  intros Hs Hb Hr. inversion Hr; subst; same_call.
  - split; auto.
    match goal with
    | Hc : has_converged _ _ = _ |- _ =>
        now apply has_converged_network in Hc
    end.
  - match goal with
    | Hc : has_converged _ _ = (Ok false, _) |- _ =>
        rewrite has_converged_eq in Hc; inversion Hc; congruence
    end.
Qed.

End RunFacts.

(** ** Exact arithmetic *)

Section Exact.
Local Open Scope Q_scope.
Implicit Types (s : ConsensusSimulation Q) (net : Network Q).

Lemma Qlt_bool_iff (a b : Q) : Qlt_bool a b = true <-> a < b.
Proof.
  unfold Qlt_bool. rewrite negb_true_iff.
  destruct (Qle_bool b a) eqn:E.
  - apply Qle_bool_iff in E. split; [discriminate|].
    intros Hlt. exfalso. eapply Qlt_not_le; eauto.
  - split; auto. intros _. apply Qnot_le_lt. intros Hle.
    apply Qle_bool_iff in Hle. congruence.
Qed.

(** [py_max] and [py_min] are the largest and the smallest item. *)
Lemma py_max_upper (x : Q) xs :
  In (py_max x xs) (x :: xs) /\ forall y, In y (x :: xs) -> y <= py_max x xs.
Proof.
  unfold py_max. revert x. induction xs as [|z xs IH]; intros x; simpl.
  - split; auto. intros y [<-|[]]. apply Qle_refl.
  - destruct (Qlt_bool x z) eqn:E.
    + apply Qlt_bool_iff in E. destruct (IH z) as [Hin Hub]. split.
      * simpl in Hin. tauto.
      * intros y [<-|Hy]; [|now apply Hub].
        apply Qle_trans with z; [now apply Qlt_le_weak | apply Hub; now left].
    + assert (Hle : z <= x).
      { apply Qnot_lt_le. intros Hlt. apply Qlt_bool_iff in Hlt. congruence. }
      destruct (IH x) as [Hin Hub]. split.
      * simpl in Hin. tauto.
      * intros y [<-|[<-|Hy]].
        -- apply Hub. now left.
        -- apply Qle_trans with x; [auto | apply Hub; now left].
        -- apply Hub. now right.
Qed.

Lemma py_min_lower (x : Q) xs :
  In (py_min x xs) (x :: xs) /\ forall y, In y (x :: xs) -> py_min x xs <= y.
Proof.
  unfold py_min. revert x. induction xs as [|z xs IH]; intros x; simpl.
  - split; auto. intros y [<-|[]]. apply Qle_refl.
  - destruct (Qlt_bool z x) eqn:E.
    + apply Qlt_bool_iff in E. destruct (IH z) as [Hin Hlb]. split.
      * simpl in Hin. tauto.
      * intros y [<-|Hy]; [|now apply Hlb].
        apply Qle_trans with z; [apply Hlb; now left | now apply Qlt_le_weak].
    + assert (Hle : x <= z).
      { apply Qnot_lt_le. intros Hlt. apply Qlt_bool_iff in Hlt. congruence. }
      destruct (IH x) as [Hin Hlb]. split.
      * simpl in Hin. tauto.
      * intros y [<-|[<-|Hy]].
        -- apply Hlb. now left.
        -- apply Qle_trans with x; [apply Hlb; now left | auto].
        -- apply Hlb. now right.
Qed.

Lemma fold_sum_uniform (vs : list Q) (v acc : Q) :
  Forall (fun x => x == v) vs ->
  fold_left Qplus vs acc == acc + inject_Z (Z.of_nat (length vs)) * v.
Proof.
  intros Hall. revert acc.
  induction Hall as [|x vs Hx Hall IH]; intros acc.
  - simpl. ring.
  - cbn [fold_left length]. rewrite IH, Hx.
    rewrite Nat2Z.inj_succ. unfold Z.succ. rewrite inject_Z_plus. ring.
Qed.

Lemma inject_Z_of_nat_nonneg (n : nat) : 0 <= inject_Z (Z.of_nat n).
Proof.
  unfold Qle. simpl. lia.
Qed.

(** With every value equal to [v], the update rule yields [v]. *)
Lemma uniform_next_value (d : dict (Agent Q)) (alpha v : Q) (ag : Agent Q) :
  value ag == v ->
  (forall n agn, dict_get n d = Some agn -> value agn == v) ->
  next_value d alpha ag == v.
Proof.
  intros Hv Hall. unfold next_value, new_value.
  destruct (neighbors ag) as [|n ns]; [exact Hv|].
  destruct (lookup_values d (n :: ns)) as [vs|] eqn:El; [|exact Hv].
  assert (Hvs : Forall (fun x => x == v) vs).
  { apply lookup_values_Forall2 in El. clear -El Hall.
    induction El as [|m x ms xs (agn & Hg & <-) _ IH]; constructor; eauto. }
  pose proof (fold_sum_uniform 0 Hvs) as Hsum.
  pose proof (inject_Z_of_nat_nonneg (length vs)) as Hk.
  cbn [add sub mul div of_int scalar]. unfold py_sum. cbn [add zero scalar].
  rewrite Hsum, Hv, inject_Z_plus.
  set (k := inject_Z (Z.of_nat (length vs))) in *.
  assert (Hne : ~ 1 + k == 0).
  { intros E. rewrite <- E in Hk at 1.
    apply (Qle_not_lt _ _ Hk). rewrite <- (Qplus_0_l k) at 1.
    apply Qplus_lt_le_compat; [reflexivity | apply Qle_refl]. }
  change (inject_Z 1) with 1. field. exact Hne.
Qed.

(** C10. In exact arithmetic a network whose agents all hold the value [v]
    is a fixed point of [step], for every step size and every topology,
    lists with repeated or self-referential entries included. *)
Theorem uniform_fixed_point s (v : Q) :
  wf_network (network s) ->
  (forall aid ag, In (aid, ag) (agents (network s)) -> value ag == v) ->
  exists s',
    step s = (Ok tt, s') /\
    dict_keys (agents (network s')) = dict_keys (agents (network s)) /\
    forall aid ag', In (aid, ag') (agents (network s')) -> value ag' == v.
Proof.
  intros Hwf Hall. eexists. split; [apply step_eq; auto|].
  cbn [network agents]. split.
  - apply dict_keys_map with
      (g := fun kv => update_value (snd kv)
                        (next_value (agents (network s)) (step_size s)
                                    (snd kv))).
  - intros aid ag' Hin. apply in_map_iff in Hin.
    destruct Hin as ([k ag] & E & Hin). inversion E; subst. cbn [snd value update_value].
    apply uniform_next_value; eauto.
    intros n agn Hg. apply (Hall n). now apply dict_get_Some_In.
Qed.

Lemma init_Raise_iff net (alpha : Q) :
  ConsensusSimulation_init net alpha = Raise ValueError
  <-> alpha <= 0 \/ 1 < alpha.
Proof.
  unfold ConsensusSimulation_init. cbn [ltb leb zero one scalar].
  destruct (Qlt_bool 0 alpha) eqn:E0; destruct (Qle_bool alpha 1) eqn:E1;
    cbn [andb negb].
  - apply Qlt_bool_iff in E0. apply Qle_bool_iff in E1.
    split; [discriminate|]. intros [Hle|Hlt]; exfalso.
    + eapply Qlt_not_le; eauto.
    + eapply Qlt_not_le; eauto.
  - split; auto. intros _. right. apply Qnot_le_lt. intros Hle.
    apply Qle_bool_iff in Hle. congruence.
  - split; auto. intros _. left. apply Qnot_lt_le. intros Hlt.
    apply Qlt_bool_iff in Hlt. congruence.
  - split; auto. intros _. left. apply Qnot_lt_le. intros Hlt.
    apply Qlt_bool_iff in Hlt. congruence.
Qed.

End Exact.

(** ** The scenarios of the test suite, on binary64 *)

Example line_network_wf : wf_networkb (line_network (T:=float)) = true.
Proof. reflexivity. Qed.

(** test_run_basic: fewer than 100 rounds. *)
Example test_run_basic :
  fst (run 100 0.001%float line_sim) = Ok 53%Z.
Proof. vm_compute. reflexivity. Qed.

(** test_isolated_agent: agent 99 still holds 999.0 after the run. *)
Example test_isolated_agent :
  option_map value
    (dict_get 99 (agents (network (snd (run 50 0.00001%float isolated_sim)))))
  = Some 999%float.
Proof. vm_compute. reflexivity. Qed.

(** test_has_converged_no_agents: [run()] on the empty network, one round. *)
Example test_has_converged_no_agents :
  exists s, ConsensusSimulation_init Network_init 0.5%float = Ok s /\
            run 1000 0.001%float s
            = (Ok 1%Z, mkSim Network_init 0.5%float 1 []).
Proof. eexists. split; reflexivity. Qed.

(** test_has_converged_single_agent: one round, value 42.0 kept. *)
Example test_has_converged_single_agent :
  let net := snd (add_agent 0 42%float Network_init) in
  exists s, ConsensusSimulation_init net 0.5%float = Ok s /\
            fst (run 1000 0.001%float s) = Ok 1%Z /\
            agents (network (snd (run 1000 0.001%float s)))
            = [(0%Z, mkAgent 0 42%float [])].
Proof. eexists. split; [reflexivity|]. split; vm_compute; reflexivity. Qed.

(** With binary64 rounding a uniform state need not be a fixed point:
    (0.1 + (0.1 + 0.1)) / 3 is not 0.1. *)
Example uniform_moves_on_binary64 :
  map (fun kv => value (snd kv)) (agents (network triangle_sim))
  = [0.1%float; 0.1%float; 0.1%float] /\
  map (fun kv => value (snd kv)) (agents (network (snd (step triangle_sim))))
  = [0.10000000000000002%float; 0.10000000000000002%float;
     0.10000000000000002%float].
Proof. split; vm_compute; reflexivity. Qed.

(** A NaN step size is refused as well. *)
Example init_nan_refused :
  forall net : Network float,
    ConsensusSimulation_init net nan = Raise ValueError.
Proof. reflexivity. Qed.

(** ** The theorems at work on concrete networks *)

Lemma step_spec_witness :
  exists s' updated,
    step (line_sim (T:=float)) = (Ok tt, s') /\
    current_round s' = 1 /\
    dict_get 0 (agents (network s')) = Some (mkAgent 0 updated [1]) /\
    updated = 2.5%float.
Proof.
  destruct (step_spec (line_sim (T:=float)))
    as (s' & Hs & Hr & _ & _ & _ & Hag).
  - apply wf_networkb_sound. reflexivity.
  - destruct (Hag 0 (mkAgent 0 0%float [1]) eq_refl)
      as (updated & Hget & _ & Hrule).
    destruct Hrule as (vals & Hvals & Hupd); [discriminate|].
    exists s', updated. split; [exact Hs|]. split; [exact Hr|].
    split; [exact Hget|].
    inversion Hvals as [|n v ns vs (agn & Hg & Hv) Hrest]; subst.
    inversion Hrest; subst.
    cbn in Hg. inversion Hg; subst agn. exact Hupd.
Defined.

(** C3 as first stated fails for [max_rounds = 0]: the loop body is never
    entered and [run] on the empty network returns 0, not 1. *)
Lemma run_zero_budget_counterexample :
  exists s,
    ConsensusSimulation_init (Network_init (T:=Q)) (1 # 2)%Q = Ok s /\
    (0 <= 0)%Z /\ (0 < 1 # 1000)%Q /\
    fst (run 0 (1 # 1000)%Q s) = Ok 0 /\
    fst (run 0 (1 # 1000)%Q s) <> Ok 1.
Proof.
  eexists. split; [reflexivity|]. split; [lia|]. split; [reflexivity|].
  split; [reflexivity | discriminate].
Qed.

Lemma run_spec_witness :
  exists n s',
    run 100 0.001%float (line_sim (T:=float)) = (Ok (0 + Z.of_nat n), s') /\
    (n <= 100)%nat.
Proof.
  destruct (@run_spec float _ 100 0.001%float line_sim)
    as (n & s' & _ & Hrun & _ & Hle & _).
  - apply wf_networkb_sound. reflexivity.
  - exists n, s'. split; [exact Hrun | exact Hle].
Defined.

Lemma add_agent_spec_witness :
  (exists net', add_agent 7 1.5%float line_network = (Ok tt, net') /\
                dict_get 7 (agents net') = Some (mkAgent 7 1.5%float [])) /\
  add_agent 1 1.5%float line_network = (Raise ValueError, line_network).
Proof.
  split.
  - destruct (proj1 (add_agent_spec (line_network (T:=float)) 7 1.5%float))
      as (net' & Hadd & _ & Hget & _).
    + reflexivity.
    + exists net'. split; [exact Hadd | exact Hget].
  - apply (proj2 (add_agent_spec (line_network (T:=float)) 1 1.5%float)
             (mkAgent 1 10%float [0; 2])).
    reflexivity.
Defined.

Lemma add_edge_spec_witness :
  add_edge 0 5 (line_network (T:=float)) = (Raise KeyError, line_network) /\
  exists net',
    add_edge 3 3 (line_network (T:=float)) = (Ok tt, net') /\
    dict_get 3 (agents net') = Some (mkAgent 3 30%float [2; 3; 3]).
Proof.
  split.
  - apply (proj1 (add_edge_spec (line_network (T:=float)) 0 5)).
    right. reflexivity.
  - destruct (proj2 (add_edge_spec (line_network (T:=float)) 3 3))
      as (net' & Hadd & _ & Hget).
    + discriminate.
    + discriminate.
    + exists net'. split; [exact Hadd | exact (Hget 3)].
Defined.

Lemma isolated_agent_unchanged_witness :
  exists r s',
    run 50 0.00001%float (isolated_sim (T:=float)) = (Ok r, s') /\
    dict_get 99 (agents (network s')) = Some (mkAgent 99 999%float []).
Proof.
  destruct (@isolated_agent_unchanged float _ isolated_sim 99
              (mkAgent 99 999%float [])) as [_ Hrun].
  - apply wf_networkb_sound. reflexivity.
  - reflexivity.
  - reflexivity.
  - exact (Hrun 50 0.00001%float).
Defined.

Lemma has_converged_frame_witness :
  exists answer s',
    has_converged 0.001%float (line_sim (T:=float)) = (Ok answer, s') /\
    network s' = network (line_sim (T:=float)).
Proof.
  destruct (@has_converged_frame float _ 0.001%float line_sim)
    as (answer & s' & Hc & Hn & _).
  - apply distinctb_NoDup. reflexivity.
  - exists answer, s'. split; [exact Hc | exact Hn].
Defined.

Lemma uniform_fixed_point_witness :
  exists s',
    step tangled_sim = (Ok tt, s') /\
    forall aid ag', In (aid, ag') (agents (network s')) ->
                    (value ag' == 1 # 10)%Q.
Proof.
  destruct (@uniform_fixed_point tangled_sim (1 # 10)%Q)
    as (s' & Hs & _ & Hv).
  - apply wf_networkb_sound. reflexivity.
  - simpl. intros aid ag [E|[E|[E|[]]]]; inversion E; reflexivity.
  - exists s'. split; [exact Hs | exact Hv].
Defined.

(** * Further properties *)

(** ** Networks built through the interface *)

Section BuiltFacts.
Context {T : Type} `{Scalar T}.
Implicit Types (net : Network T) (ag : Agent T).

Lemma perform_built cs net : built net -> built (perform cs net).
Proof.
  revert net. induction cs as [|c cs IH]; intros net Hb; auto.
  cbn [perform]. apply IH.
  destruct c as [aid v|a b]; cbn [perform_call].
  - eapply built_add_agent; [exact Hb | apply surjective_pairing].
  - eapply built_add_edge; [exact Hb | apply surjective_pairing].
Qed.

(** The outcome of [add_edge] between two registered agents. *)
Lemma add_edge_effect net a b ag_a ag_b :
  dict_get a (agents net) = Some ag_a ->
  dict_get b (agents net) = Some ag_b ->
  exists net',
    add_edge a b net = (Ok tt, net') /\
    dict_keys (agents net') = dict_keys (agents net) /\
    forall x,
      dict_get x (agents net')
      = option_map (with_edge a b x) (dict_get x (agents net)).
Proof.
  intros Ea Eb.
  set (d1 := dict_set a (append_neighbor ag_a b) (agents net)).
  assert (Hin : forall k ag, dict_get k (agents net) = Some ag ->
                             In k (dict_keys (agents net))).
  { intros k ag Hg. apply dict_mem_true. unfold dict_mem. now rewrite Hg. }
  assert (Hk1 : dict_keys d1 = dict_keys (agents net))
    by (apply dict_keys_set_present; eauto).
  destruct (Z.eq_dec a b) as [<-|Hab].
  - assert (ag_b = ag_a) by congruence. subst ag_b.
    assert (Hb1 : dict_get a d1 = Some (append_neighbor ag_a a))
      by apply dict_get_set_same.
    eexists. split; [apply (add_edge_present net a a Ea Hb1)|].
    cbn [agents]. fold d1. split.
    + rewrite dict_keys_set_present; rewrite Hk1; eauto.
    + intros x. unfold with_edge. destruct (Z.eq_dec a x) as [<-|Hax].
      * rewrite dict_get_set_same, Ea, Z.eqb_refl. cbn.
        unfold append_neighbor. cbn. now rewrite <- app_assoc.
      * unfold d1. rewrite !dict_get_set_other by auto.
        assert (Ex : (x =? a) = false) by (apply Z.eqb_neq; auto).
        rewrite Ex. destruct (dict_get x (agents net)) as [[i w l]|]; cbn; auto.
        unfold append_neighbor; now rewrite ?app_nil_r.
  - assert (Hb1 : dict_get b d1 = Some ag_b)
      by (unfold d1; now rewrite dict_get_set_other).
    eexists. split; [apply (add_edge_present net a b Ea Hb1)|].
    cbn [agents]. fold d1. split.
    + rewrite dict_keys_set_present; rewrite Hk1; eauto.
    + intros x. unfold with_edge. destruct (Z.eq_dec b x) as [<-|Hbx].
      * rewrite dict_get_set_same, Eb, Z.eqb_refl.
        assert (Ex : (b =? a) = false) by (apply Z.eqb_neq; auto).
        rewrite Ex. reflexivity.
      * rewrite dict_get_set_other by auto.
        assert (Ex : (x =? b) = false) by (apply Z.eqb_neq; auto).
        rewrite Ex. unfold d1. destruct (Z.eq_dec a x) as [<-|Hax].
        -- rewrite dict_get_set_same, Ea, Z.eqb_refl. cbn.
           unfold append_neighbor; now rewrite ?app_nil_r.
        -- rewrite dict_get_set_other by auto.
           assert (Ex' : (x =? a) = false) by (apply Z.eqb_neq; auto).
           rewrite Ex'. destruct (dict_get x (agents net)) as [[i w l]|];
             cbn; auto. unfold append_neighbor; now rewrite ?app_nil_r.
Qed.

(** Outcomes of the two construction calls, by cases. *)
Lemma add_agent_cases net aid v :
  (dict_get aid (agents net) = None /\
   add_agent aid v net
   = (Ok tt, mkNetwork (agents net ++ [(aid, mkAgent aid v [])]))) \/
  (dict_get aid (agents net) <> None /\
   add_agent aid v net = (Raise ValueError, net)).
Proof.
  destruct (dict_mem aid (agents net)) eqn:Hm.
  - right. split; [|now apply add_agent_duplicate].
    unfold dict_mem in Hm. destruct (dict_get aid (agents net)); congruence.
  - left. split; [now apply dict_mem_false | now apply add_agent_fresh].
Qed.

Lemma add_edge_cases net a b :
  (exists ag_a ag_b,
      dict_get a (agents net) = Some ag_a /\
      dict_get b (agents net) = Some ag_b) \/
  add_edge a b net = (Raise KeyError, net).
Proof.
  destruct (dict_get a (agents net)) as [ag_a|] eqn:Ea.
  - destruct (dict_get b (agents net)) as [ag_b|] eqn:Eb.
    + left. eauto.
    + right. apply add_edge_unknown. right. now apply dict_mem_false.
  - right. apply add_edge_unknown. left. now apply dict_mem_false.
Qed.

Lemma built_ids net : built net -> ids_match_keys net.
Proof.
  induction 1 as [| net aid v r net' Hb IH Hadd | net a b r net' Hb IH Hadd].
  - intros k ag [].
  - destruct (add_agent_cases net aid v) as [[_ E]|[_ E]];
      rewrite E in Hadd; inversion Hadd; subst; auto.
    intros k ag Hin. cbn [agents] in Hin. apply in_app_or in Hin.
    destruct Hin as [Hin|[E'|[]]]; [now apply IH|].
    now inversion E'.
  - destruct (add_edge_cases net a b) as [(ag_a & ag_b & Ea & Eb)|E].
    2:{ rewrite E in Hadd. inversion Hadd; subst; auto. }
    destruct (add_edge_effect net a b Ea Eb) as (net1 & E & _ & Hget).
    rewrite E in Hadd. inversion Hadd; subst net1 r. clear Hadd.
    assert (Hwf' : wf_network net')
      by (eapply wf_add_edge; [apply built_wf; exact Hb | exact E]).
    intros k ag Hin. apply (@dict_get_In _ _ k ag (proj1 Hwf')) in Hin.
    rewrite Hget in Hin.
    destruct (dict_get k (agents net)) as [ag0|] eqn:E0; [|discriminate].
    cbn in Hin. inversion Hin; subst ag. cbn.
    apply IH. now apply dict_get_Some_In.
Qed.

Lemma dict_get_snoc {V} (d : dict V) k v x :
  dict_get x (d ++ [(k, v)])
  = match dict_get x d with
    | Some w => Some w
    | None => if k =? x then Some v else None
    end.
Proof.
  induction d as [|[k' v'] d IH]; simpl; auto.
  now destruct (k' =? x).
Qed.

Lemma count_with_edge a b x y (l : list Z) :
  count_occ Z.eq_dec
    (l ++ (if x =? a then [b] else []) ++ (if x =? b then [a] else [])) y
  = (count_occ Z.eq_dec l y
     + (if (x =? a)%Z && (y =? b)%Z then 1 else 0)
     + (if (x =? b)%Z && (y =? a)%Z then 1 else 0))%nat.
Proof.
  rewrite !count_occ_app.
  destruct (x =? a) eqn:Exa; destruct (x =? b) eqn:Exb;
    destruct (y =? a) eqn:Eya; destruct (y =? b) eqn:Eyb;
    cbn [andb count_occ];
    repeat match goal with
           | E : (_ =? _) = true |- _ => apply Z.eqb_eq in E
           | E : (_ =? _) = false |- _ => apply Z.eqb_neq in E
           | |- context [Z.eq_dec ?u ?w] => destruct (Z.eq_dec u w)
           end; subst; try congruence; lia.
Qed.

(** X2. Edges stay symmetric, with multiplicity: in every network built
    through the interface, [b] occurs in the neighbor list of [a] exactly
    as often as [a] occurs in the neighbor list of [b]. *)
Theorem built_edges_symmetric net :
  built net ->
  forall a b ag_a ag_b,
    dict_get a (agents net) = Some ag_a ->
    dict_get b (agents net) = Some ag_b ->
    count_occ Z.eq_dec (neighbors ag_a) b
    = count_occ Z.eq_dec (neighbors ag_b) a.
Proof.
  intros Hbuilt. change (symmetric net).
  induction Hbuilt as [| net aid v r net' Hb IH Hadd | net a b r net' Hb IH Hadd].
  - intros a b ag_a ag_b Ha. discriminate.
  - destruct (add_agent_cases net aid v) as [[Hnone E]|[_ E]];
      rewrite E in Hadd; inversion Hadd; subst; auto.
    pose proof (built_wf Hb) as [_ Hclosed].
    assert (Hnew : forall k ag,
               dict_get k (agents net) = Some ag ->
               count_occ Z.eq_dec (neighbors ag) aid = 0%nat).
    { intros k ag Hg. apply count_occ_not_In. intros Hin.
      apply dict_get_Some_In in Hg.
      specialize (Hclosed _ _ _ Hg Hin). apply dict_mem_true in Hclosed.
      now apply dict_get_None in Hnone. }
    intros a b ag_a ag_b. cbn [agents]. rewrite !dict_get_snoc.
    destruct (dict_get a (agents net)) as [ag1|] eqn:Ea;
      destruct (dict_get b (agents net)) as [ag2|] eqn:Eb.
    + intros [= <-] [= <-]. eapply IH; eauto.
    + destruct (aid =? b) eqn:E1; [|discriminate].
      apply Z.eqb_eq in E1. subst b. intros [= <-] [= <-]. cbn.
      eapply Hnew; eauto.
    + destruct (aid =? a) eqn:E1; [|discriminate].
      apply Z.eqb_eq in E1. subst a. intros [= <-] [= <-]. cbn.
      symmetry. eapply Hnew; eauto.
    + destruct (aid =? a) eqn:E1; [|discriminate].
      destruct (aid =? b) eqn:E2; [|discriminate].
      now intros [= <-] [= <-].
  - destruct (add_edge_cases net a b) as [(ag_a & ag_b & Ea & Eb)|E].
    2:{ rewrite E in Hadd. inversion Hadd; subst; auto. }
    destruct (add_edge_effect net a b Ea Eb) as (net1 & E & _ & Hget).
    rewrite E in Hadd. inversion Hadd; subst net1 r. clear Hadd.
    intros x y ag_x ag_y. rewrite !Hget.
    destruct (dict_get x (agents net)) as [ag1|] eqn:Ex; [|discriminate].
    destruct (dict_get y (agents net)) as [ag2|] eqn:Ey; [|discriminate].
    cbn [option_map]. intros [= <-] [= <-]. unfold with_edge. cbn [neighbors].
    rewrite !count_with_edge. rewrite (IH x y ag1 ag2 Ex Ey).
    destruct (x =? a), (x =? b), (y =? a), (y =? b); cbn; lia.
Qed.

Lemma symmetricb_sound net : symmetricb net = true -> symmetric net.
Proof.
  unfold symmetricb. intros Hb a b ag_a ag_b Ha Hg.
  apply dict_get_Some_In in Ha. apply dict_get_Some_In in Hg.
  rewrite forallb_forall in Hb. specialize (Hb _ Ha).
  rewrite forallb_forall in Hb. specialize (Hb _ Hg).
  now apply Nat.eqb_eq in Hb.
Qed.

(** X1. In every network built from the empty one by calls of [add_agent]
    and [add_edge], refused calls included, the keys are distinct, every
    agent is registered under its own id, and every neighbor entry names a
    registered agent. *)
Theorem built_well_formed net :
  built net ->
  dict_ok (agents net) /\
  (forall k ag, dict_get k (agents net) = Some ag -> agent_id ag = k) /\
  (forall k ag n,
      dict_get k (agents net) = Some ag -> In n (neighbors ag) ->
      dict_get n (agents net) <> None).
Proof.
  intros Hb. pose proof (built_wf Hb) as [Hok Hclosed]. splits; auto.
  - intros k ag Hg. apply (built_ids Hb). now apply dict_get_Some_In.
  - intros k ag n Hg Hin. apply dict_get_Some_In in Hg.
    specialize (Hclosed _ _ _ Hg Hin). unfold dict_mem in Hclosed.
    destruct (dict_get n (agents net)); congruence.
Qed.

Lemma dict_ext {V} (d1 d2 : dict V) :
  dict_keys d1 = dict_keys d2 -> dict_ok d1 ->
  (forall x, dict_get x d1 = dict_get x d2) -> d1 = d2.
Proof.
  revert d2. induction d1 as [|[k v] d1 IH]; intros [|[k2 v2] d2] Hk Hok Hg;
    try discriminate; auto.
  cbn in Hk. inversion Hk; subst k2.
  pose proof (Hg k) as Hgk. cbn in Hgk. rewrite Z.eqb_refl in Hgk.
  inversion Hgk; subst v2. f_equal.
  inversion Hok as [|? ? Hn Hok']; subst.
  apply IH; auto. intros x. specialize (Hg x). cbn in Hg.
  destruct (k =? x) eqn:E; auto.
  apply Z.eqb_eq in E. subst x.
  assert (E1 : dict_get k d1 = None) by now apply dict_get_None.
  assert (E2 : dict_get k d2 = None).
  { apply dict_get_None. unfold dict_keys in *. now rewrite <- H2. }
  congruence.
Qed.

(** [get_all_values] on a dict with distinct keys is a [map]. *)
Lemma get_all_values_map net :
  dict_ok (agents net) ->
  get_all_values net = map (fun kv => (fst kv, value (snd kv))) (agents net).
Proof.
  intros Hok. unfold get_all_values. now apply dict_comprehension_map.
Qed.

(** X3. [get_all_values] returns a dict with the keys of the network in
    the same order, in which each key is bound to the current value of its
    agent, and no other key is bound. *)
Theorem get_all_values_lookup net :
  dict_ok (agents net) ->
  dict_ok (get_all_values net) /\
  dict_keys (get_all_values net) = dict_keys (agents net) /\
  forall k,
    dict_get k (get_all_values net)
    = option_map value (dict_get k (agents net)).
Proof.
  intros Hok. rewrite get_all_values_map by auto.
  assert (Hk : dict_keys (map (fun kv => (fst kv, value (snd kv))) (agents net))
               = dict_keys (agents net))
    by apply dict_keys_map with (g := fun kv => value (snd kv)).
  splits; auto.
  - unfold dict_ok. now rewrite Hk.
  - intros k. rewrite (dict_get_map (fun kv => value (snd kv))).
    now destruct (dict_get k (agents net)).
Qed.

(** X4. The construction calls never touch a value: whatever its outcome,
    [add_edge] leaves [get_all_values] as it was, and [add_agent] either
    leaves it as it was (id in use) or adds the new binding at the end. *)
Theorem construction_keeps_values net :
  dict_ok (agents net) ->
  (forall a b,
      get_all_values (snd (add_edge a b net)) = get_all_values net) /\
  (forall aid v,
      get_all_values (snd (add_agent aid v net))
      = if dict_mem aid (agents net) then get_all_values net
        else get_all_values net ++ [(aid, v)]).
Proof.
  intros Hok. split.
  - intros a b.
    destruct (add_edge_cases net a b) as [(ag_a & ag_b & Ea & Eb)|E].
    2:{ now rewrite E. }
    destruct (add_edge_effect net a b Ea Eb) as (net' & E & Hk & Hget).
    rewrite E. cbn [snd].
    assert (Hok' : dict_ok (agents net'))
      by (unfold dict_ok; now rewrite Hk).
    assert (Hag : agents net'
                  = map (fun kv => (fst kv, with_edge a b (fst kv) (snd kv)))
                        (agents net)).
    { apply dict_ext; auto.
      - now rewrite (dict_keys_map
                       (fun kv => with_edge a b (fst kv) (snd kv))).
      - intros x. rewrite Hget.
        rewrite (dict_get_map (fun kv => with_edge a b (fst kv) (snd kv))).
        now destruct (dict_get x (agents net)). }
    rewrite !get_all_values_map by auto. rewrite Hag, map_map.
    now apply map_ext.
  - intros aid v.
    destruct (add_agent_cases net aid v) as [[Hnone E]|[Hsome E]]; rewrite E.
    + apply dict_mem_false in Hnone. rewrite Hnone. cbn [snd].
      assert (Hok' : dict_ok (agents net ++ [(aid, mkAgent aid v [])])).
      { unfold dict_ok, dict_keys. rewrite map_app.
        apply NoDup_app; auto.
        - cbn. constructor; [intros [] | constructor].
        - intros x Hx [<-|[]].
          apply (proj2 (dict_mem_true (agents net) aid)) in Hx. congruence. }
      rewrite !get_all_values_map by auto. cbn [agents].
      now rewrite map_app.
    + cbn [snd]. unfold dict_mem.
      destruct (dict_get aid (agents net)); congruence.
Qed.

End BuiltFacts.

(** ** Failure and frame of the rounds *)

Section RoundFrame.
Context {T : Type} `{Scalar T}.
Implicit Types (s : ConsensusSimulation T) (epsilon : T).

Lemma lookup_values_dangling (d : dict (Agent T)) ns n :
  In n ns -> dict_get n d = None -> lookup_values d ns = None.
Proof.
  induction ns as [|m ns IH]; cbn; [tauto|].
  intros [->|Hin] Hn.
  - now rewrite Hn.
  - rewrite (IH Hin Hn). now destruct (dict_get m d).
Qed.

Lemma new_value_dangling (d : dict (Agent T)) alpha ag n :
  In n (neighbors ag) -> dict_get n d = None -> new_value d alpha ag = None.
Proof.
  intros Hin Hn. unfold new_value.
  destruct (neighbors ag) as [|m ns] eqn:E; [contradiction|].
  now rewrite (@lookup_values_dangling d (m :: ns) n Hin Hn).
Qed.

(** The first loop stops at the first agent with a dangling entry; up to
    there it has written nothing. *)
Lemma compute_loop_dangling items acc s :
  (exists item, In item items /\
     new_value (agents (network s)) (step_size s) (snd item) = None) ->
  for_fold items acc step_body s = (Raise KeyError, s).
Proof.
  revert acc. induction items as [|[aid ag] items IH]; intros acc Hex.
  - destruct Hex as (item & [] & _).
  - cbn [for_fold]. unfold bind. rewrite step_body_eq.
    destruct (new_value (agents (network s)) (step_size s) ag) eqn:E; auto.
    apply IH. destruct Hex as (item & [<-|Hin] & Hn); eauto.
    cbn in Hn. congruence.
Qed.

Lemma step_dangling s :
  dangling (network s) -> step s = (Raise KeyError, s).
Proof.
  intros (aid & ag & n & Hin & Hn & Hnone).
  unfold step. unfold bind at 1. unfold get at 1.
  unfold bind at 1. rewrite compute_loop_dangling; auto.
  exists (aid, ag). split; auto. cbn [snd].
  eapply new_value_dangling; eauto.
Qed.

Lemma not_dangling_wf (net : Network T) :
  dict_ok (agents net) -> ~ dangling net -> wf_network net.
Proof.
  intros Hok Hnd. split; auto.
  intros aid ag n Hin Hn. unfold dict_mem.
  destruct (dict_get n (agents net)) eqn:E; auto.
  exfalso. apply Hnd. exists aid, ag, n. auto.
Qed.

(** X5. [step] raises KeyError exactly when some neighbor entry names no
    agent of the network, and then nothing has been written: every value,
    the round counter and the snapshot are as before the call.  Otherwise
    it succeeds and counts one round. *)
Theorem step_fails_iff_dangling s :
  dict_ok (agents (network s)) ->
  (dangling (network s) -> step s = (Raise KeyError, s)) /\
  (~ dangling (network s) ->
   exists s', step s = (Ok tt, s') /\
              current_round s' = current_round s + 1) /\
  (forall s', step s = (Ok tt, s') -> ~ dangling (network s)).
Proof.
  intros Hok. splits.
  - apply step_dangling.
  - intros Hnd. eexists. split.
    + apply step_eq. now apply not_dangling_wf.
    + reflexivity.
  - intros s' Hs Hd. rewrite step_dangling in Hs by auto. discriminate.
Qed.

(** X6. With a dangling neighbor entry and a budget of at least one round,
    [run] raises KeyError in its first round; the snapshot has been taken
    by then, and nothing else has changed. *)
Theorem run_fails_on_dangling max_rounds epsilon s :
  dangling (network s) -> 1 <= max_rounds ->
  run max_rounds epsilon s
  = (Raise KeyError, set_previous_values s (get_all_values (network s))).
Proof.
  intros Hd Hmax. unfold run. unfold bind at 1.
  rewrite initialize_previous_values_eq.
  destruct (Z.to_nat max_rounds) as [|budget] eqn:E; [lia|].
  cbn [run_loop]. unfold bind at 1 2.
  now rewrite step_dangling.
Qed.

(** A property of the simulation kept by [step] and by the check holds
    after the loop. *)
Lemma rounds_sim_invariant (P : ConsensusSimulation T -> Prop)
    epsilon budget s n s' :
  (forall s0 s1, P s0 -> step s0 = (Ok tt, s1) -> P s1) ->
  (forall s0 r s1, P s0 -> has_converged epsilon s0 = (r, s1) -> P s1) ->
  rounds epsilon budget s n s' -> P s -> P s'.
Proof.
  intros Hstep Hcheck.
  induction 1 as [s | budget s s1 s2 Hs Hc | budget s s1 s2 n s3 Hs Hc Hr IH];
    intros HP; eauto.
Qed.

Lemma step_topology s s1 :
  wf_network (network s) -> step s = (Ok tt, s1) ->
  topology (network s1) = topology (network s) /\
  step_size s1 = step_size s.
Proof.
  intros Hwf Hs. rewrite step_eq in Hs by auto.
  inversion Hs; subst; clear Hs. cbn [network step_size]. split; auto.
  unfold topology. cbn [agents]. rewrite map_map. now apply map_ext.
Qed.

(** X7. On a well-formed network [run] never raises; it executes no round
    when [max_rounds <= 0], leaving every value as it was, and at least one
    and at most [max_rounds] rounds otherwise, on any arithmetic. *)
Theorem run_round_count max_rounds epsilon s :
  wf_network (network s) ->
  exists n s',
    run max_rounds epsilon s = (Ok (current_round s + n), s') /\
    current_round s' = current_round s + n /\
    (max_rounds <= 0 -> n = 0 /\ network s' = network s) /\
    (1 <= max_rounds -> 1 <= n <= max_rounds).
Proof.
  intros Hwf.
  destruct (run_rounds max_rounds epsilon s Hwf)
    as (n & s' & Hr & Hrun & Hcr & Hle & Hpos).
  exists (Z.of_nat n), s'. splits; auto.
  - intros Hmax. replace (Z.to_nat max_rounds) with O in Hr by lia.
    inversion Hr; subst. split; reflexivity.
  - intros Hmax. assert (0 < Z.to_nat max_rounds)%nat by lia.
    specialize (Hpos ltac:(assumption)). lia.
Qed.

(** X8. [run] changes values only: afterwards the keys, the ids, every
    neighbor list and the step size are what they were. *)
Theorem run_keeps_topology max_rounds epsilon s r s' :
  wf_network (network s) ->
  run max_rounds epsilon s = (r, s') ->
  topology (network s') = topology (network s) /\
  step_size s' = step_size s.
Proof.
  intros Hwf Hrun.
  destruct (run_rounds max_rounds epsilon s Hwf)
    as (n & s1 & Hr & Hrun' & _).
  rewrite Hrun' in Hrun. inversion Hrun; subst r s1. clear Hrun.
  apply (rounds_sim_invariant
           (fun s0 => wf_network (network s0) /\
                      topology (network s0) = topology (network s) /\
                      step_size s0 = step_size s)) in Hr.
  - tauto.
  - intros s0 s1 (Hwf0 & Ht & Ha) Hs.
    destruct (@step_topology s0 s1 Hwf0 Hs) as [Ht1 Ha1].
    splits; try congruence. eapply wf_step; eauto.
  - intros s0 r0 s1 (Hwf0 & Ht & Ha) Hc.
    apply has_converged_network in Hc. destruct Hc as (Hn & _ & Hs).
    rewrite Hn, Hs. auto.
  - cbn [network set_previous_values step_size]. auto.
Qed.

End RoundFrame.

(** ** Exact arithmetic: the check without a step in between *)

Section CheckTwice.
Local Open Scope Q_scope.
Implicit Types (s : ConsensusSimulation Q) (net : Network Q).

Lemma filter_none {A} (f : A -> bool) (l : list A) :
  (forall x, In x l -> f x = false) -> filter f l = [].
Proof.
  induction l as [|x l IH]; intros Hf; cbn; auto.
  rewrite (Hf x) by now left. apply IH. intros y Hy. apply Hf. now right.
Qed.

Lemma moved_false (epsilon : Q) (previous : dict Q) k (ag : Agent Q) :
  0 <= epsilon ->
  match dict_get k previous with
  | Some old => old == value ag
  | None => True
  end ->
  moved epsilon previous (k, ag) = false.
Proof.
  intros Heps Hold. unfold moved, gtb. cbn [fst snd ltb absv sub scalar].
  destruct (Qlt_bool epsilon _) eqn:E; auto.
  apply Qlt_bool_iff in E. exfalso.
  assert (Hz : Qabs (value ag -
                    match dict_get k previous with
                    | Some o => o
                    | None => value ag
                    end) == 0).
  { destruct (dict_get k previous) as [old|].
    - rewrite Hold. unfold Qminus. rewrite Qplus_opp_r. reflexivity.
    - unfold Qminus. rewrite Qplus_opp_r. reflexivity. }
  rewrite Hz in E. eapply Qlt_not_le; eauto.
Qed.

(** When no agent differs from its snapshot entry the check answers true,
    whatever the spread. *)
Lemma converged_unmoved s (epsilon : Q) :
  0 <= epsilon -> snapshot_current Qeq s -> converged_spec s epsilon = true.
Proof.
  intros Heps Hsnap. unfold converged_spec.
  destruct (spread (network s)) as [sp|]; auto.
  destruct (ltb sp epsilon); auto.
  rewrite filter_none.
  - cbn [length of_int div ltb c02 scalar]. apply Qlt_bool_iff.
    unfold Qdiv. rewrite Qmult_0_l. reflexivity.
  - intros [k ag] Hin. apply moved_false; auto. now apply Hsnap.
Qed.

(** X9. On a simulation that has just been constructed, [has_converged]
    answers true for every tolerance [epsilon >= 0], however far apart the
    values are: the snapshot is empty, so no agent counts as moved. *)
Theorem new_simulation_reports_converged net alpha s (epsilon : Q) :
  ConsensusSimulation_init net alpha = Ok s ->
  0 <= epsilon ->
  fst (has_converged epsilon s) = Ok true.
Proof.
  intros Hinit Heps. apply ConsensusSimulation_init_Ok in Hinit. subst s.
  rewrite has_converged_eq. cbn [fst]. f_equal.
  apply converged_unmoved; auto.
  intros k ag Hin. cbn. exact I.
Qed.

(** X10. Two checks without a [step] in between: whatever the first one
    answered, the second one answers true (for [epsilon >= 0]), because
    the first has either returned by the spread test, which the second
    repeats, or refreshed the snapshot to the current values. *)
Theorem second_check_reports_converged s (epsilon : Q) r s1 :
  dict_ok (agents (network s)) ->
  0 <= epsilon ->
  has_converged epsilon s = (r, s1) ->
  fst (has_converged epsilon s1) = Ok true.
Proof.
  intros Hok Heps Hc. rewrite has_converged_eq in Hc.
  inversion Hc as [[Hr Hs1]]. clear Hc Hr.
  rewrite has_converged_eq. cbn [fst]. f_equal.
  destruct (spread (network s)) as [sp|] eqn:Esp.
  - destruct (Qlt_bool sp epsilon) eqn:Elt.
    + unfold converged_spec. rewrite Esp. cbn [ltb scalar]. now rewrite Elt.
    + apply converged_unmoved; auto.
      intros k ag Hin. cbn [network set_previous_values _previous_values].
      rewrite get_all_values_map by auto.
      rewrite (dict_get_map (fun kv => value (snd kv))).
      rewrite (@dict_get_In _ _ k ag Hok Hin). cbn. reflexivity.
  - unfold converged_spec. now rewrite Esp.
Qed.

End CheckTwice.

(** ** Exact arithmetic: what the averaging keeps *)

Section Averaging.
Local Open Scope Q_scope.
Implicit Types (s : ConsensusSimulation Q) (net : Network Q).

Lemma fold_sum_bounds (vs : list Q) (lo hi acc : Q) :
  Forall (fun x => lo <= x <= hi) vs ->
  acc + inject_Z (Z.of_nat (length vs)) * lo <= fold_left Qplus vs acc
  /\ fold_left Qplus vs acc <= acc + inject_Z (Z.of_nat (length vs)) * hi.
Proof.
  intros Hall. revert acc.
  induction Hall as [|x vs [Hlo Hhi] Hall IH]; intros acc.
  - cbn [fold_left length Z.of_nat]. change (inject_Z 0) with 0. split; lra.
  - cbn [fold_left length]. destruct (IH (acc + x)) as [IHlo IHhi].
    rewrite Nat2Z.inj_succ. unfold Z.succ. rewrite inject_Z_plus.
    change (inject_Z 1) with 1. split; lra.
Qed.

Lemma lookup_values_all (P : Q -> Prop) (d : dict (Agent Q)) ns vs :
  (forall n agn, dict_get n d = Some agn -> P (value agn)) ->
  lookup_values d ns = Some vs -> Forall P vs.
Proof.
  intros HP El. apply lookup_values_Forall2 in El.
  induction El as [|m x ms xs (agn & Hg & <-) _ IH]; constructor; eauto.
Qed.

(** The new value of an agent is a mean of its value and the values its
    neighbor entries name, so it lies where they lie. *)
Lemma within_next_value (d : dict (Agent Q)) (alpha lo hi : Q) (ag : Agent Q) :
  0 <= alpha <= 1 ->
  lo <= value ag <= hi ->
  (forall n agn, dict_get n d = Some agn -> lo <= value agn <= hi) ->
  lo <= next_value d alpha ag <= hi.
Proof.
  intros [Ha0 Ha1] [Hvlo Hvhi] Hall. unfold next_value, new_value.
  destruct (neighbors ag) as [|n ns]; [split; assumption|].
  destruct (lookup_values d (n :: ns)) as [vs|] eqn:El; [|split; assumption].
  pose proof (lookup_values_all (fun x => lo <= x <= hi) d _ Hall El) as Hvs.
  destruct (fold_sum_bounds 0 Hvs) as [Hslo Hshi].
  pose proof (inject_Z_of_nat_nonneg (length vs)) as Hk.
  cbn [add sub mul div of_int scalar]. unfold py_sum. cbn [add zero scalar].
  rewrite inject_Z_plus. change (inject_Z 1) with 1.
  set (k := inject_Z (Z.of_nat (length vs))) in *.
  set (S := fold_left Qplus vs 0) in *.
  set (v := value ag) in *.
  assert (Hpos : 0 < 1 + k) by lra.
  assert (Havlo : lo <= (v + S) / (1 + k))
    by (apply Qle_shift_div_l; [exact Hpos | lra]).
  assert (Havhi : (v + S) / (1 + k) <= hi)
    by (apply Qle_shift_div_r; [exact Hpos | lra]).
  set (avg := (v + S) / (1 + k)) in *.
  assert (H1 : 0 <= alpha * (avg - lo))
    by (apply Qmult_le_0_compat; lra).
  assert (H2 : 0 <= (1 - alpha) * (v - lo))
    by (apply Qmult_le_0_compat; lra).
  assert (H3 : 0 <= alpha * (hi - avg))
    by (apply Qmult_le_0_compat; lra).
  assert (H4 : 0 <= (1 - alpha) * (hi - v))
    by (apply Qmult_le_0_compat; lra).
  split; lra.
Qed.

Lemma step_within s s1 (lo hi : Q) :
  wf_network (network s) -> 0 <= step_size s <= 1 ->
  within lo hi (network s) -> step s = (Ok tt, s1) ->
  within lo hi (network s1).
Proof.
  intros Hwf Ha Hin Hs. rewrite step_eq in Hs by auto.
  inversion Hs; subst; clear Hs. cbn [network].
  intros aid ag' Hin'. cbn [agents] in Hin'. apply in_map_iff in Hin'.
  destruct Hin' as ([k ag] & E & Hin'). inversion E; subst.
  cbn [snd value update_value]. apply within_next_value; eauto.
  intros n agn Hg. apply (Hin n). now apply dict_get_Some_In.
Qed.

(** X11. With a step size in [0,1], as the constructor enforces, no round
    takes a value out of the range of the values held before it: if every
    value lies in [lo, hi], so does every value after a [step], and after
    a whole [run]. *)
Theorem values_stay_within s (lo hi : Q) :
  wf_network (network s) ->
  0 <= step_size s <= 1 ->
  within lo hi (network s) ->
  (exists s1, step s = (Ok tt, s1) /\ within lo hi (network s1)) /\
  (forall max_rounds epsilon, exists r s',
      run max_rounds epsilon s = (Ok r, s') /\ within lo hi (network s')).
Proof.
  intros Hwf Ha Hin. split.
  - destruct (step_round s Hwf) as (s1 & Hs & _).
    exists s1. split; auto. eapply step_within; eauto.
  - intros max_rounds epsilon.
    destruct (run_rounds max_rounds epsilon s Hwf)
      as (n & s' & Hr & Hrun & _).
    do 2 eexists. split; [exact Hrun|].
    apply (rounds_sim_invariant
             (fun s0 => wf_network (network s0) /\
                        step_size s0 = step_size s /\
                        within lo hi (network s0))) in Hr.
    + tauto.
    + intros s0 s1 (Hwf0 & Ha0 & Hin0) Hs. splits.
      * eapply wf_step; eauto.
      * destruct (@step_topology _ _ s0 s1 Hwf0 Hs). congruence.
      * eapply step_within; eauto. now rewrite Ha0.
    + intros s0 r0 s1 (Hwf0 & Ha0 & Hin0) Hc.
      apply has_converged_network in Hc. destruct Hc as (Hn & _ & Hs).
      rewrite Hn, Hs. auto.
    + cbn [network set_previous_values step_size]. auto.
Qed.

Lemma step_uniform s s1 (v : Q) :
  wf_network (network s) -> uniform v (network s) ->
  step s = (Ok tt, s1) -> uniform v (network s1).
Proof.
  intros Hwf Hu Hs. rewrite step_eq in Hs by auto.
  inversion Hs; subst; clear Hs. cbn [network].
  intros aid ag' Hin'. cbn [agents] in Hin'. apply in_map_iff in Hin'.
  destruct Hin' as ([k ag] & E & Hin'). inversion E; subst.
  cbn [snd value update_value]. apply uniform_next_value; eauto.
  intros n agn Hg. apply (Hu n). now apply dict_get_Some_In.
Qed.

Lemma value_listed net (y : Q) :
  In y (map value (dict_values (agents net))) ->
  exists k ag, In (k, ag) (agents net) /\ value ag = y.
Proof.
  intros Hin. apply in_map_iff in Hin. destruct Hin as (ag & <- & Hin).
  apply in_map_iff in Hin. destruct Hin as ([k ag'] & E & Hin).
  cbn in E. subst ag'. eauto.
Qed.

(** In a uniform state the spread is zero. *)
Lemma converged_uniform s (v epsilon : Q) :
  uniform v (network s) -> 0 < epsilon -> converged_spec s epsilon = true.
Proof.
  intros Hu Heps. unfold converged_spec, spread.
  destruct (map value (dict_values (agents (network s)))) as [|x xs] eqn:E;
    auto.
  destruct (py_max_upper x xs) as [Hmax _].
  destruct (py_min_lower x xs) as [Hmin _].
  rewrite <- E in Hmax, Hmin.
  apply value_listed in Hmax. destruct Hmax as (k1 & ag1 & Hin1 & E1).
  apply value_listed in Hmin. destruct Hmin as (k2 & ag2 & Hin2 & E2).
  apply Hu in Hin1. apply Hu in Hin2. rewrite E1 in Hin1. rewrite E2 in Hin2.
  replace (ltb (sub (py_max x xs) (py_min x xs)) epsilon) with true; auto.
  symmetry. apply Qlt_bool_iff. cbn [sub scalar].
  rewrite Hin1, Hin2. unfold Qminus. now rewrite Qplus_opp_r.
Qed.

(** X12. [run] on a network already in consensus (all values equal to
    [v]), with a positive tolerance and a budget of at least one round,
    executes exactly one round and leaves every value equal to [v]. *)
Theorem run_on_consensus s (v : Q) max_rounds (epsilon : Q) :
  wf_network (network s) ->
  uniform v (network s) ->
  0 < epsilon ->
  (1 <= max_rounds)%Z ->
  exists s',
    run max_rounds epsilon s = (Ok (current_round s + 1)%Z, s') /\
    uniform v (network s').
Proof.
  intros Hwf Hu Heps Hmax.
  destruct (run_rounds max_rounds epsilon s Hwf)
    as (n & s' & Hr & Hrun & _).
  destruct (Z.to_nat max_rounds) as [|budget] eqn:Eb; [lia|].
  set (s0 := set_previous_values s (get_all_values (network s))) in *.
  destruct (step_round s0 Hwf) as (s1 & Hs & _).
  assert (Hu1 : uniform v (network s1))
    by exact (@step_uniform s0 s1 v Hwf Hu Hs).
  eapply rounds_first_converged in Hr;
    [| exact Hs | now apply converged_uniform with v].
  destruct Hr as [-> Hn]. exists s'. split; [exact Hrun|]. now rewrite Hn.
Qed.

End Averaging.

(** ** Exact arithmetic: the conserved quantity *)

Section Conservation.
Local Open Scope Q_scope.
Implicit Types (s : ConsensusSimulation Q) (net : Network Q).

Lemma qsum_nil {A} (f : A -> Q) : qsum f [] = 0.
Proof. reflexivity. Qed.

Lemma qsum_cons {A} (f : A -> Q) (a : A) (l : list A) :
  qsum f (a :: l) = f a + qsum f l.
Proof. reflexivity. Qed.

Lemma qsum_ext {A} (f g : A -> Q) (l : list A) :
  (forall a, In a l -> f a == g a) -> qsum f l == qsum g l.
Proof.
  induction l as [|a l IH]; intros Hfg; [reflexivity|].
  rewrite !qsum_cons. rewrite (Hfg a) by now left.
  rewrite IH; [reflexivity|]. intros b Hb. apply Hfg. now right.
Qed.

Lemma qsum_plus {A} (f g : A -> Q) (l : list A) :
  qsum (fun a => f a + g a) l == qsum f l + qsum g l.
Proof.
  induction l as [|a l IH]; rewrite ?qsum_nil, ?qsum_cons; [ring|].
  rewrite IH. ring.
Qed.

Lemma qsum_scale {A} (c : Q) (f : A -> Q) (l : list A) :
  qsum (fun a => c * f a) l == c * qsum f l.
Proof.
  induction l as [|a l IH]; rewrite ?qsum_nil, ?qsum_cons; [ring|].
  rewrite IH. ring.
Qed.

Lemma qsum_zero {A} (l : list A) : qsum (fun _ => 0) l == 0.
Proof.
  induction l as [|a l IH]; rewrite ?qsum_nil, ?qsum_cons; [reflexivity|].
  rewrite IH. ring.
Qed.

Lemma qsum_map {A B} (h : A -> B) (f : B -> Q) (l : list A) :
  qsum f (map h l) = qsum (fun a => f (h a)) l.
Proof.
  induction l as [|a l IH]; [reflexivity|].
  cbn [map]. rewrite !qsum_cons. now rewrite IH.
Qed.

Lemma qsum_swap {A B} (g : A -> B -> Q) (l1 : list A) (l2 : list B) :
  qsum (fun a => qsum (fun b => g a b) l2) l1
  == qsum (fun b => qsum (fun a => g a b) l1) l2.
Proof.
  induction l1 as [|a l1 IH].
  - rewrite qsum_nil. symmetry. apply qsum_zero.
  - rewrite qsum_cons, IH. symmetry.
    rewrite <- qsum_plus. apply qsum_ext. intros b _.
    now rewrite qsum_cons.
Qed.

Lemma fold_sum_qsum (vs : list Q) (acc : Q) :
  fold_left Qplus vs acc == acc + qsum (fun x => x) vs.
Proof.
  revert acc. induction vs as [|x vs IH]; intros acc.
  - rewrite qsum_nil. cbn [fold_left]. ring.
  - rewrite qsum_cons. cbn [fold_left]. rewrite IH. ring.
Qed.

Lemma qsum_length {A} (l : list A) :
  qsum (fun _ => 1) l == inject_Z (Z.of_nat (length l)).
Proof.
  induction l as [|a l IH]; [reflexivity|].
  rewrite qsum_cons, IH. cbn [length].
  rewrite Nat2Z.inj_succ. unfold Z.succ. rewrite inject_Z_plus.
  change (inject_Z 1) with 1. ring.
Qed.

Lemma qsum_delta_absent {V} (f : Z -> Q) (items : dict V) n :
  ~ In n (dict_keys items) ->
  qsum (fun q => (if Z.eq_dec n (fst q) then 1 else 0) * f (fst q)) items == 0.
Proof.
  induction items as [|[k v] items IH]; intros Hn; [reflexivity|].
  rewrite qsum_cons. cbn [fst]. cbn in Hn.
  destruct (Z.eq_dec n k) as [->|Hne]; [exfalso; auto|].
  rewrite IH by auto. ring.
Qed.

Lemma qsum_delta {V} (f : Z -> Q) (items : dict V) n :
  dict_ok items -> In n (dict_keys items) ->
  qsum (fun q => (if Z.eq_dec n (fst q) then 1 else 0) * f (fst q)) items
  == f n.
Proof.
  unfold dict_ok.
  induction items as [|[k v] items IH]; intros Hok Hin; [destruct Hin|].
  rewrite qsum_cons. cbn [fst]. cbn in Hok, Hin.
  inversion Hok as [|? ? Hk Hok']; subst.
  destruct (Z.eq_dec n k) as [->|Hne].
  - rewrite qsum_delta_absent by auto. ring.
  - rewrite IH; [ring | auto |]. destruct Hin; [congruence | auto].
Qed.

Lemma occurrences_cons m (l : list Z) k :
  occurrences (m :: l) k
  == (if Z.eq_dec m k then 1 else 0) + occurrences l k.
Proof.
  unfold occurrences. cbn [count_occ].
  destruct (Z.eq_dec m k).
  - rewrite Nat2Z.inj_succ. unfold Z.succ. rewrite inject_Z_plus.
    change (inject_Z 1) with 1. ring.
  - ring.
Qed.

(** A sum over a neighbor list, regrouped by agent. *)
Lemma qsum_by_count {V} (f : Z -> Q) (items : dict V) (l : list Z) :
  dict_ok items ->
  (forall n, In n l -> In n (dict_keys items)) ->
  qsum f l == qsum (fun q => occurrences l (fst q) * f (fst q)) items.
Proof.
  intros Hok. induction l as [|m l IH]; intros Hin.
  - rewrite qsum_nil. symmetry.
    rewrite (qsum_ext _ (fun _ => 0)); [apply qsum_zero|].
    intros q _. unfold occurrences. cbn. ring.
  - rewrite qsum_cons, IH by (intros n Hn; apply Hin; now right).
    rewrite <- (@qsum_delta _ f items m Hok (Hin m (or_introl eq_refl))).
    rewrite <- qsum_plus. apply qsum_ext. intros q _.
    rewrite occurrences_cons. ring.
Qed.

Lemma lookup_values_closed (d : dict (Agent Q)) (l : list Z) :
  (forall n, In n l -> dict_mem n d = true) ->
  lookup_values d l = Some (map (value_at d) l).
Proof.
  induction l as [|m l IH]; intros Hin; [reflexivity|].
  cbn [lookup_values map]. rewrite IH by (intros n Hn; apply Hin; now right).
  specialize (Hin m (or_introl eq_refl)). unfold dict_mem in Hin.
  unfold value_at. now destruct (dict_get m d).
Qed.

(** The update rule, multiplied out by the weight of the agent. *)
Lemma next_value_weighted (d : dict (Agent Q)) (alpha : Q) (ag : Agent Q) :
  (forall n, In n (neighbors ag) -> dict_mem n d = true) ->
  (1 + degree ag) * next_value d alpha ag
  == (1 + degree ag) * value ag
     + alpha * (qsum (value_at d) (neighbors ag) - degree ag * value ag).
Proof.
  intros Hclosed. unfold next_value, new_value, degree.
  rewrite (@lookup_values_closed d _ Hclosed).
  destruct (neighbors ag) as [|n ns] eqn:E.
  - rewrite qsum_nil. cbn [length Z.of_nat]. change (inject_Z 0) with 0. ring.
  - rewrite <- E. cbn [add sub mul div of_int scalar]. unfold py_sum.
    cbn [add zero scalar]. rewrite fold_sum_qsum, qsum_map.
    rewrite length_map, inject_Z_plus. change (inject_Z 1) with 1.
    pose proof (inject_Z_of_nat_nonneg (length (neighbors ag))) as Hk.
    set (k := inject_Z (Z.of_nat (length (neighbors ag)))) in *.
    set (S := qsum (fun a => value_at d a) (neighbors ag)).
    field. intros E0. lra.
Qed.

(** The double count behind the conservation: summed over the network,
    the values the neighbor entries name and the values weighted by the
    number of entries are the same. *)
Lemma neighbor_sums_balance net :
  wf_network net -> symmetric net ->
  qsum (fun p => qsum (value_at (agents net)) (neighbors (snd p))) (agents net)
  == qsum (fun p => degree (snd p) * value (snd p)) (agents net).
Proof.
  intros [Hok Hclosed] Hsym.
  set (d := agents net) in *.
  assert (Hval : forall q, In q d -> value_at d (fst q) = value (snd q)).
  { intros [k ag] Hin. unfold value_at. cbn [fst snd].
    now rewrite (@dict_get_In _ d k ag Hok Hin). }
  assert (Hkeys : forall p, In p d ->
             forall n, In n (neighbors (snd p)) -> In n (dict_keys d)).
  { intros [k ag] Hin n Hn. apply dict_mem_true. eapply Hclosed; eauto. }
  transitivity
    (qsum (fun p =>
             qsum (fun q => occurrences (neighbors (snd p)) (fst q)
                            * value (snd q)) d) d).
  { apply qsum_ext. intros p Hp.
    rewrite (@qsum_by_count _ (value_at d) d _ Hok (Hkeys p Hp)).
    apply qsum_ext. intros q Hq. now rewrite (Hval q Hq). }
  transitivity
    (qsum (fun p =>
             qsum (fun q => occurrences (neighbors (snd p)) (fst q)
                            * value (snd p)) d) d).
  2:{ apply qsum_ext. intros p Hp.
      rewrite (qsum_ext _ (fun q => value (snd p)
                                    * (occurrences (neighbors (snd p)) (fst q)
                                       * 1)))
        by (intros q _; ring).
      rewrite qsum_scale.
      rewrite <- (@qsum_by_count _ (fun _ => 1) d _ Hok (Hkeys p Hp)).
      rewrite qsum_length. unfold degree. ring. }
  rewrite qsum_swap. apply qsum_ext. intros p Hp.
  apply qsum_ext. intros q Hq.
  destruct p as [a ag_a], q as [b ag_b]. cbn [fst snd].
  unfold occurrences.
  rewrite (Hsym b a ag_b ag_a (@dict_get_In _ d b ag_b Hok Hq)
                              (@dict_get_In _ d a ag_a Hok Hp)).
  reflexivity.
Qed.

Lemma weighted_sum_revalued (d : dict (Agent Q)) (g : Agent Q -> Q) :
  weighted_sum
    (mkNetwork (map (fun kv => (fst kv, update_value (snd kv) (g (snd kv)))) d))
  = qsum (fun kv => (1 + degree (snd kv)) * g (snd kv)) d.
Proof.
  unfold weighted_sum. cbn [agents]. now rewrite qsum_map.
Qed.

Lemma step_weighted_sum s s1 :
  wf_network (network s) -> symmetric (network s) ->
  step s = (Ok tt, s1) ->
  weighted_sum (network s1) == weighted_sum (network s).
Proof.
  intros Hwf Hsym Hs. rewrite step_eq in Hs by auto.
  inversion Hs; subst; clear Hs. cbn [network].
  rewrite (weighted_sum_revalued (agents (network s))
             (next_value (agents (network s)) (step_size s))).
  set (d := agents (network s)). set (alpha := step_size s).
  rewrite (qsum_ext _
             (fun kv => (1 + degree (snd kv)) * value (snd kv)
                        + alpha * (qsum (value_at d) (neighbors (snd kv))
                                   + (-1) * (degree (snd kv) * value (snd kv))))).
  2:{ intros [k ag] Hin. cbn [snd]. rewrite next_value_weighted.
      - ring.
      - intros n Hn. destruct Hwf as [_ Hclosed]. eapply Hclosed; eauto. }
  rewrite qsum_plus, qsum_scale, qsum_plus, qsum_scale.
  pose proof (neighbor_sums_balance Hwf Hsym) as Hbal. fold d in Hbal.
  rewrite Hbal. unfold weighted_sum. fold d. ring.
Qed.

Lemma step_symmetric s s1 :
  wf_network (network s) -> symmetric (network s) ->
  step s = (Ok tt, s1) -> symmetric (network s1).
Proof.
  intros Hwf Hsym Hs. rewrite step_eq in Hs by auto.
  inversion Hs; subst; clear Hs. cbn [network].
  intros a b ag_a ag_b. cbn [agents].
  rewrite !(dict_get_map
              (fun kv => update_value (snd kv)
                           (next_value (agents (network s)) (step_size s)
                                       (snd kv)))).
  destruct (dict_get a (agents (network s))) as [ag1|] eqn:Ea; [|discriminate].
  destruct (dict_get b (agents (network s))) as [ag2|] eqn:Eb; [|discriminate].
  intros [= <-] [= <-]. cbn [snd neighbors update_value]. eauto.
Qed.

Lemma total_weight_topology net net' :
  topology net' = topology net -> total_weight net' = total_weight net.
Proof.
  unfold topology, total_weight, degree. intros Ht.
  assert (Hl : map (fun kv : Z * Agent Q => length (neighbors (snd kv)))
                   (agents net')
               = map (fun kv => length (neighbors (snd kv))) (agents net)).
  { apply (f_equal (map (fun t : Z * (Z * list Z) => length (snd (snd t)))))
      in Ht. now rewrite !map_map in Ht. }
  rewrite <- (qsum_map (fun kv : Z * Agent Q => length (neighbors (snd kv)))
                (fun n => 1 + inject_Z (Z.of_nat n)) (agents net')).
  rewrite Hl. now rewrite qsum_map.
Qed.

(** X13. In exact arithmetic, on a well-formed network with symmetric
    edges (every network built through the interface), the sum of the
    values weighted by one plus the number of neighbor entries is the same
    after a [step] as before, and the same after a whole [run], for every
    step size. *)
Theorem weighted_sum_conserved s :
  wf_network (network s) ->
  symmetric (network s) ->
  (exists s1, step s = (Ok tt, s1) /\
              weighted_sum (network s1) == weighted_sum (network s)) /\
  (forall max_rounds epsilon, exists r s',
      run max_rounds epsilon s = (Ok r, s') /\
      weighted_sum (network s') == weighted_sum (network s)).
Proof.
  intros Hwf Hsym. split.
  - destruct (step_round s Hwf) as (s1 & Hs & _).
    exists s1. split; auto. now apply step_weighted_sum.
  - intros max_rounds epsilon.
    destruct (run_rounds max_rounds epsilon s Hwf)
      as (n & s' & Hr & Hrun & _).
    do 2 eexists. split; [exact Hrun|].
    apply (rounds_sim_invariant
             (fun s0 => wf_network (network s0) /\
                        symmetric (network s0) /\
                        weighted_sum (network s0)
                        == weighted_sum (network s))) in Hr.
    + tauto.
    + intros s0 s1 (Hwf0 & Hsym0 & Hw0) Hs. splits.
      * eapply wf_step; eauto.
      * eapply step_symmetric; eauto.
      * rewrite <- Hw0. now apply step_weighted_sum.
    + intros s0 r0 s1 (Hwf0 & Hsym0 & Hw0) Hc.
      apply has_converged_network in Hc. destruct Hc as (Hn & _).
      rewrite Hn. auto.
    + cbn [network set_previous_values]. splits; auto. reflexivity.
Qed.

(** X14. Which value a consensus can have: if a [run] on a well-formed
    symmetric network ends with every agent holding [v], then [v] is the
    mean of the initial values weighted by one plus the number of neighbor
    entries, not their plain mean. *)
Theorem consensus_value s max_rounds (epsilon : Q) r s' (v : Q) :
  wf_network (network s) ->
  symmetric (network s) ->
  run max_rounds epsilon s = (r, s') ->
  uniform v (network s') ->
  v * total_weight (network s) == weighted_sum (network s).
Proof.
  intros Hwf Hsym Hrun Hu.
  destruct (run_rounds max_rounds epsilon s Hwf)
    as (n & s1 & Hr & Hrun' & _).
  rewrite Hrun' in Hrun. inversion Hrun; subst r s1. clear Hrun.
  apply (rounds_sim_invariant
           (fun s0 => wf_network (network s0) /\
                      symmetric (network s0) /\
                      topology (network s0) = topology (network s) /\
                      weighted_sum (network s0)
                      == weighted_sum (network s))) in Hr.
  - destruct Hr as (_ & _ & Ht & Hw).
    rewrite <- Hw, <- (total_weight_topology _ _ Ht).
    unfold total_weight, weighted_sum. rewrite <- qsum_scale.
    apply qsum_ext. intros [k ag] Hin. cbn [snd].
    rewrite (Hu k ag Hin). ring.
  - intros s0 s1 (Hwf0 & Hsym0 & Ht0 & Hw0) Hs. splits.
    + eapply wf_step; eauto.
    + eapply step_symmetric; eauto.
    + destruct (@step_topology _ _ s0 s1 Hwf0 Hs). congruence.
    + rewrite <- Hw0. now apply step_weighted_sum.
  - intros s0 r0 s1 (Hwf0 & Hsym0 & Ht0 & Hw0) Hc.
    apply has_converged_network in Hc. destruct Hc as (Hn & _).
    rewrite Hn. auto.
  - cbn [network set_previous_values]. splits; auto. reflexivity.
Qed.

End Conservation.

(** ** The further properties at work on concrete networks *)

Lemma built_line_network : built (line_network (T:=Q)).
Proof.
  exact (perform_built
           [AddAgent 0 0%Q; AddAgent 1 10%Q; AddAgent 2 20%Q; AddAgent 3 30%Q;
            AddEdge 0 1; AddEdge 1 2; AddEdge 2 3]
           built_init).
Defined.

Lemma built_tangled_network : built (tangled_network (1 # 10)%Q).
Proof.
  exact (perform_built
           [AddAgent 0 (1 # 10)%Q; AddAgent 1 (1 # 10)%Q;
            AddAgent 2 (1 # 10)%Q;
            AddEdge 0 1; AddEdge 1 2; AddEdge 2 0; AddEdge 0 1; AddEdge 1 1]
           built_init).
Defined.

Lemma built_well_formed_witness :
  dict_ok (agents (line_network (T:=Q))) /\
  agent_id (mkAgent 2 20%Q [1; 3]) = 2.
Proof.
  destruct (built_well_formed built_line_network) as (Hok & Hid & _).
  split; [exact Hok | apply Hid; reflexivity].
Defined.

Lemma built_edges_symmetric_witness :
  count_occ Z.eq_dec [1; 2; 1] 1 = count_occ Z.eq_dec [0; 2; 0; 1; 1] 0.
Proof.
  exact (built_edges_symmetric built_tangled_network 0 1
           (ag_a := mkAgent 0 (1 # 10)%Q [1; 2; 1])
           (ag_b := mkAgent 1 (1 # 10)%Q [0; 2; 0; 1; 1]) eq_refl eq_refl).
Defined.

Lemma get_all_values_lookup_witness :
  dict_get 2 (get_all_values (line_network (T:=float))) = Some 20%float.
Proof.
  destruct (get_all_values_lookup (line_network (T:=float))) as (_ & _ & Hg).
  - apply distinctb_NoDup. reflexivity.
  - exact (Hg 2).
Defined.

Lemma construction_keeps_values_witness :
  get_all_values (snd (add_edge 0 3 (line_network (T:=float))))
  = get_all_values line_network.
Proof.
  destruct (construction_keeps_values (line_network (T:=float))) as [He _].
  - apply distinctb_NoDup. reflexivity.
  - exact (He 0 3).
Defined.

Lemma broken_sim_dangling {T} `{Scalar T} : dangling (network broken_sim).
Proof.
  exists 0, (mkAgent 0 (of_int 1) [5]), 5. cbn. auto.
Defined.

Lemma step_fails_iff_dangling_witness :
  step (broken_sim (T:=float)) = (Raise KeyError, broken_sim).
Proof.
  destruct (step_fails_iff_dangling (broken_sim (T:=float))) as (Hfail & _).
  - apply distinctb_NoDup. reflexivity.
  - apply Hfail. apply broken_sim_dangling.
Defined.

Lemma run_fails_on_dangling_witness :
  run 10 0.001%float broken_sim
  = (Raise KeyError,
     set_previous_values broken_sim (get_all_values (network broken_sim))).
Proof.
  apply run_fails_on_dangling.
  - apply broken_sim_dangling.
  - lia.
Defined.

Lemma run_round_count_witness :
  exists n s',
    run 100 0.001%float (line_sim (T:=float)) = (Ok (0 + n), s') /\
    1 <= n <= 100.
Proof.
  destruct (@run_round_count float _ 100 0.001%float line_sim)
    as (n & s' & Hrun & _ & _ & Hn).
  - apply wf_networkb_sound. reflexivity.
  - exists n, s'. split; [exact Hrun | apply Hn; lia].
Defined.

Lemma run_keeps_topology_witness :
  topology (network (snd (run 100 0.001%float (line_sim (T:=float)))))
  = topology (network (line_sim (T:=float))).
Proof.
  refine (proj1 (@run_keeps_topology float _ 100 0.001%float line_sim
                   (fst (run 100 0.001%float line_sim))
                   (snd (run 100 0.001%float line_sim)) _ _)).
  - apply wf_networkb_sound. reflexivity.
  - apply surjective_pairing.
Defined.

Lemma new_simulation_reports_converged_witness :
  fst (has_converged 0%Q (line_sim (T:=Q))) = Ok true.
Proof.
  apply (@new_simulation_reports_converged line_network (1 # 2)%Q).
  - reflexivity.
  - apply Qle_refl.
Defined.

Lemma second_check_reports_converged_witness :
  fst (has_converged (1 # 1000)%Q
         (snd (has_converged (1 # 1000)%Q (line_sim (T:=Q))))) = Ok true.
Proof.
  apply (@second_check_reports_converged line_sim (1 # 1000)%Q
           (fst (has_converged (1 # 1000)%Q line_sim))).
  - apply distinctb_NoDup. reflexivity.
  - discriminate.
  - apply surjective_pairing.
Defined.

Lemma line_within : within 0%Q 30%Q (network (line_sim (T:=Q))).
Proof.
  intros aid ag Hin. cbn in Hin.
  destruct Hin as [E|[E|[E|[E|[]]]]]; inversion E; subst; cbn;
    split; discriminate.
Defined.

Lemma values_stay_within_witness :
  exists r s',
    run 5 (1 # 1000)%Q (line_sim (T:=Q)) = (Ok r, s') /\
    within 0%Q 30%Q (network s').
Proof.
  destruct (@values_stay_within line_sim 0%Q 30%Q) as [_ Hrun].
  - apply wf_networkb_sound. reflexivity.
  - split; discriminate.
  - apply line_within.
  - exact (Hrun 5 (1 # 1000)%Q).
Defined.

Lemma tangled_uniform : uniform (1 # 10)%Q (network tangled_sim).
Proof.
  intros aid ag Hin. cbn in Hin.
  destruct Hin as [E|[E|[E|[]]]]; inversion E; reflexivity.
Defined.

Lemma run_on_consensus_witness :
  exists s',
    run 1000 (1 # 1000)%Q tangled_sim = (Ok 1, s') /\
    uniform (1 # 10)%Q (network s').
Proof.
  apply (@run_on_consensus tangled_sim (1 # 10)%Q 1000 (1 # 1000)%Q).
  - apply wf_networkb_sound. reflexivity.
  - apply tangled_uniform.
  - reflexivity.
  - lia.
Defined.

Lemma weighted_sum_conserved_witness :
  exists s1,
    step (line_sim (T:=Q)) = (Ok tt, s1) /\
    (weighted_sum (network s1) == 150)%Q.
Proof.
  destruct (@weighted_sum_conserved line_sim) as [(s1 & Hs & Hw) _].
  - apply wf_networkb_sound. reflexivity.
  - apply symmetricb_sound. reflexivity.
  - exists s1. split; [exact Hs|]. rewrite Hw. reflexivity.
Defined.

Lemma pair_consensus :
  uniform 5%Q (network (snd (run 3 (1 # 1000)%Q pair_sim))).
Proof.
  intros aid ag Hin. vm_compute in Hin.
  destruct Hin as [E|[E|[]]]; inversion E; reflexivity.
Defined.

Lemma consensus_value_witness :
  (5 * total_weight (network pair_sim) == weighted_sum (network pair_sim))%Q.
Proof.
  apply (@consensus_value pair_sim 3 (1 # 1000)%Q
           (fst (run 3 (1 # 1000)%Q pair_sim))
           (snd (run 3 (1 # 1000)%Q pair_sim)) 5%Q).
  - apply wf_networkb_sound. reflexivity.
  - apply symmetricb_sound. reflexivity.
  - apply surjective_pairing.
  - apply pair_consensus.
Defined.

(** * The contract on both arithmetics *)

(** ** The first round *)

Section FirstRound.
Context {T : Type} `{Scalar T}.
Implicit Types (s : ConsensusSimulation T) (epsilon : T).

(** With a budget of at least one round, a round is executed. *)
Lemma run_first_round max_rounds epsilon s :
  wf_network (network s) -> 1 <= max_rounds ->
  exists n s',
    run max_rounds epsilon s = (Ok (current_round s + Z.of_nat n), s') /\
    (1 <= n)%nat /\
    current_round s' = current_round s + Z.of_nat n.
Proof.
  intros Hwf Hmax.
  destruct (run_rounds max_rounds epsilon s Hwf)
    as (n & s' & _ & Hrun & Hcr & _ & Hpos).
  exists n, s'. splits; auto. apply Hpos. lia.
Qed.

(** When the check after the first round answers true, [run] returns
    after that round. *)
Lemma run_one_round max_rounds epsilon s s1 :
  wf_network (network s) -> 1 <= max_rounds ->
  step (set_previous_values s (get_all_values (network s))) = (Ok tt, s1) ->
  converged_spec s1 epsilon = true ->
  exists s',
    run max_rounds epsilon s = (Ok (current_round s + 1), s') /\
    network s' = network s1.
Proof.
  intros Hwf Hmax Hs Hc.
  destruct (run_rounds max_rounds epsilon s Hwf)
    as (n & s' & Hr & Hrun & _).
  destruct (Z.to_nat max_rounds) as [|budget] eqn:Eb; [lia|].
  eapply rounds_first_converged in Hr; [| exact Hs | exact Hc].
  destruct Hr as [-> Hn]. exists s'. split; [exact Hrun | exact Hn].
Qed.

Lemma converged_no_agent s epsilon :
  agents (network s) = [] -> converged_spec s epsilon = true.
Proof.
  intros Ha. unfold converged_spec, spread. now rewrite Ha.
Qed.

(** A lone agent whose snapshot entry is its value: the check answers
    true as soon as [v - v] is below the tolerance or not above it. *)
Lemma converged_lone s epsilon aid ag :
  agents (network s) = [(aid, ag)] ->
  _previous_values s = [(aid, value ag)] ->
  ltb (sub (value ag) (value ag)) epsilon = true \/
  (ltb epsilon (absv (sub (value ag) (value ag))) = false /\
   ltb (div (of_int 0) (of_int 1)) c02 = true) ->
  converged_spec s epsilon = true.
Proof.
  intros Ha Hp Hself. unfold converged_spec, spread. rewrite Ha, Hp.
  cbn [dict_values map snd py_max py_min fold_left].
  destruct (ltb (sub (value ag) (value ag)) epsilon) eqn:E; auto.
  destruct Hself as [Hlt | [Hmoved Hratio]]; [discriminate|].
  cbn [filter]. unfold moved, gtb. cbn [fst snd dict_get].
  rewrite Z.eqb_refl, Hmoved. exact Hratio.
Qed.

Lemma wf_lone aid (ag : Agent T) :
  neighbors ag = [] -> wf_network (mkNetwork [(aid, ag)]).
Proof.
  intros Hn. split.
  - unfold dict_ok. cbn. constructor; [intros [] | constructor].
  - intros k a n [E|[]] Hin. inversion E; subst. rewrite Hn in Hin.
    destruct Hin.
Qed.

(** [run] on a new simulation over a lone agent without neighbor. *)
Lemma run_lone max_rounds epsilon alpha aid ag :
  neighbors ag = [] -> 1 <= max_rounds ->
  ltb (sub (value ag) (value ag)) epsilon = true \/
  (ltb epsilon (absv (sub (value ag) (value ag))) = false /\
   ltb (div (of_int 0) (of_int 1)) c02 = true) ->
  exists s',
    run max_rounds epsilon (mkSim (mkNetwork [(aid, ag)]) alpha 0 [])
    = (Ok 1, s') /\
    agents (network s') = [(aid, ag)].
Proof.
  intros Hn Hmax Hself.
  set (s := mkSim (mkNetwork [(aid, ag)]) alpha 0 []).
  pose proof (wf_lone aid ag Hn) as Hwf.
  pose proof (step_eq (set_previous_values s (get_all_values (network s))) Hwf)
    as Hs.
  cbn [network set_previous_values s agents step_size current_round
       _previous_values map fst snd] in Hs.
  unfold next_value, new_value in Hs. rewrite Hn in Hs.
  replace (update_value ag (value ag)) with ag in Hs by (now destruct ag).
  destruct (@run_one_round max_rounds epsilon s _ Hwf Hmax Hs) as (s' & Hrun & Hnet).
  - apply converged_lone with aid ag; auto.
  - exists s'. split; [exact Hrun | now rewrite Hnet].
Qed.

End FirstRound.

(** ** Binary64 *)

Section Binary64.
Local Open Scope float_scope.

(** [x - x] is +0, or NaN when [x] is infinite or NaN. *)
Lemma sub_self (x : float) :
  Prim2SF (x - x) = S754_zero false \/ Prim2SF (x - x) = S754_nan.
Proof.
  rewrite FloatAxioms.sub_spec. destruct (Prim2SF x) as [sg|sg| |sg m e]; cbn.
  - left. now destruct sg.
  - right. now destruct sg.
  - now right.
  - left. unfold SF64sub, SFsub. rewrite Z.sub_diag. reflexivity.
Qed.

(** Nothing is farther from itself than a tolerance [>= 0]. *)
Lemma self_distance_not_above (x eps : float) :
  (0 <=? eps) = true -> (eps <? PrimFloat.abs (x - x)) = false.
Proof.
  rewrite FloatAxioms.leb_spec, FloatAxioms.ltb_spec, FloatAxioms.abs_spec.
  change (Prim2SF 0) with (S754_zero false).
  destruct (sub_self x) as [-> | ->]; cbn [SFabs].
  - destruct (Prim2SF eps) as [[]|[]| |[] m e]; cbn; congruence.
  - intros _. unfold SFltb. now destruct (Prim2SF eps).
Qed.

Lemma self_distance_below (x eps : float) :
  (0 <? eps) = true ->
  (x - x <? eps) = true \/ (eps <? PrimFloat.abs (x - x)) = false.
Proof.
  intros Hpos. rewrite !FloatAxioms.ltb_spec, FloatAxioms.abs_spec in *.
  change (Prim2SF 0) with (S754_zero false) in Hpos.
  destruct (sub_self x) as [-> | ->]; cbn [SFabs].
  - now left.
  - right. unfold SFltb. now destruct (Prim2SF eps).
Qed.

Lemma SFcompare_pos_antisym m e m' e' :
  SFcompare (S754_finite false m e) (S754_finite false m' e')
  = option_map CompOpp
      (SFcompare (S754_finite false m' e') (S754_finite false m e)).
Proof.
  cbn [SFcompare option_map]. rewrite (Z.compare_antisym e e').
  destruct (e ?= e')%Z; cbn [CompOpp]; auto.
  change (Pos.compare_cont Eq m m') with (Pos.compare m m').
  change (Pos.compare_cont Eq m' m) with (Pos.compare m' m).
  now rewrite (Pos.compare_antisym m' m).
Qed.

(** Outside (0,1] on binary64: at most 0, above 1, or not a number. *)
Lemma refused_iff (a : float) :
  (0 <? a) && (a <=? 1) = false
  <-> (a <=? 0) = true \/ (1 <? a) = true \/ PrimFloat.is_nan a = true.
Proof.
  unfold PrimFloat.is_nan. rewrite !FloatAxioms.ltb_spec, !FloatAxioms.leb_spec, FloatAxioms.eqb_spec.
  change (Prim2SF 0) with (S754_zero false).
  change (Prim2SF 1) with (S754_finite false 4503599627370496 (-52)).
  generalize 4503599627370496%positive (-52)%Z. intros m1 e1.
  destruct (Prim2SF a) as [sg|sg| |sg m e].
  - cbn. intuition.
  - destruct sg; cbn; intuition.
  - cbn. intuition.
  - destruct sg.
    + cbn. intuition.
    + unfold SFltb, SFleb, SFeqb.
      rewrite (SFcompare_pos_antisym m1 e1 m e).
      destruct (SFcompare (S754_finite false m e) (S754_finite false m1 e1))
        as [[]|] eqn:E1.
      all: assert (E2 : SFcompare (S754_finite false m e)
                                  (S754_finite false m e) = Some Eq)
        by (cbn [SFcompare]; rewrite Z.compare_refl;
            change (Pos.compare_cont Eq m m) with (Pos.compare m m);
            now rewrite Pos.compare_refl).
      all: rewrite E2; cbn.
      4: cbn [SFcompare] in E1; discriminate.
      all: intuition congruence.
Qed.

End Binary64.

(** ** The claims that depend on the arithmetic *)

(** C2 as first stated fails for a negative tolerance: with [epsilon = -1]
    an agent without snapshot entry is at distance 0 from its stand-in,
    which is more than [epsilon], so it counts as changed; on the line
    network with an empty snapshot all four agents count and the check
    answers false, on either arithmetic. *)
Lemma has_converged_negative_epsilon_counterexample :
  _previous_values (line_sim (T:=Q)) = [] /\
  length (filter (moved (-1)%Q []) (agents (network (line_sim (T:=Q)))))
  = 4%nat /\
  fst (has_converged (-1)%Q (line_sim (T:=Q))) = Ok false /\
  fst (has_converged (-1)%float (line_sim (T:=float))) = Ok false.
Proof.
  repeat split; vm_compute; reflexivity.
Qed.

(** C2 (amended). [has_converged] never raises.  It answers true for a
    network without agent; otherwise true when max - min of the current
    values, each found by Python's left-to-right scan, is below [epsilon];
    otherwise it counts the agents whose value differs by more than
    [epsilon] from their snapshot entry, the current value standing in for
    a missing entry, and answers whether that count divided by the number
    of agents is below 0.2.  An agent without snapshot entry counts as
    unchanged whenever [epsilon >= 0], on binary64 and in exact arithmetic,
    where the scans moreover return the largest and the smallest value. *)
Theorem has_converged_spec :
  (forall (T : Type) (ST : Scalar T) (epsilon : T)
          (s : ConsensusSimulation T),
      let values := map (fun kv => value (snd kv)) (agents (network s)) in
      exists answer,
        fst (has_converged epsilon s) = Ok answer /\
        (values = [] -> answer = true) /\
        (forall v vs,
            values = v :: vs ->
            let max_val := fold_left (fun m y => if ltb m y then y else m) vs v in
            let min_val := fold_left (fun m y => if ltb y m then y else m) vs v in
            (ltb (sub max_val min_val) epsilon = true -> answer = true) /\
            (ltb (sub max_val min_val) epsilon = false ->
             let changed_count :=
               Z.of_nat
                 (length
                    (filter
                       (fun kv =>
                          ltb epsilon
                              (absv
                                 (sub (value (snd kv))
                                      match dict_get (fst kv)
                                                     (_previous_values s) with
                                      | Some old => old
                                      | None => value (snd kv)
                                      end)))
                       (agents (network s)))) in
             let total_agent_count :=
               Z.of_nat (length (agents (network s))) in
             answer
             = ltb (div (of_int changed_count) (of_int total_agent_count))
                   c02))) /\
  (forall (epsilon x : float),
      leb zero epsilon = true ->
      ltb epsilon (absv (sub x x)) = false) /\
  (forall (epsilon x : Q),
      (0 <= epsilon)%Q ->
      ltb epsilon (absv (sub x x)) = false) /\
  (forall (v : Q) (vs : list Q),
      let max_val := fold_left (fun m y => if ltb m y then y else m) vs v in
      let min_val := fold_left (fun m y => if ltb y m then y else m) vs v in
      In max_val (v :: vs) /\ In min_val (v :: vs) /\
      forall y, In y (v :: vs) -> (min_val <= y <= max_val)%Q).
Proof.
  split; [|split; [|split]].
  - intros T ST epsilon s values.
    exists (converged_spec s epsilon). rewrite has_converged_eq.
    split; [reflexivity|].
    assert (Hv : map value (dict_values (agents (network s))) = values)
      by (unfold values, dict_values; now rewrite map_map).
    unfold converged_spec, spread. rewrite Hv. split.
    + intros ->. reflexivity.
    + intros v vs ->. cbn zeta. split; intros Hlt.
      * unfold py_max, py_min, gtb. now rewrite Hlt.
      * unfold py_max, py_min, gtb. rewrite Hlt. reflexivity.
  - intros epsilon x. apply self_distance_not_above.
  - intros epsilon x Heps.
    pose proof (@moved_false epsilon [] 0 (mkAgent 0 x []) Heps I) as Hm.
    exact Hm.
  - intros v vs max_val min_val.
    destruct (py_max_upper v vs) as [Hmax Hub].
    destruct (py_min_lower v vs) as [Hmin Hlb].
    split; [exact Hmax|]. split; [exact Hmin|].
    intros y Hy. split; [now apply Hlb | now apply Hub].
Qed.

(** C3 (amended).  On a new simulation over a well-formed network, as
    [add_agent] and [add_edge] build them, and with a budget of at least
    one round, [run] executes at least one round and returns the number of
    rounds executed, on any arithmetic; on the empty network it returns
    exactly 1.  On a network of one agent without neighbor, with a positive
    tolerance, it returns exactly 1 and the agent is unchanged, on binary64
    (whatever the value, infinities and NaN included) and in exact
    arithmetic. *)
Theorem run_at_least_one_round :
  (forall (T : Type) (ST : Scalar T) (net : Network T) alpha s max_rounds
          (epsilon : T),
      wf_network net ->
      ConsensusSimulation_init net alpha = Ok s ->
      1 <= max_rounds ->
      exists r s',
        run max_rounds epsilon s = (Ok r, s') /\
        1 <= r /\
        current_round s' = r /\
        (agents net = [] -> r = 1 /\ agents (network s') = [])) /\
  (forall (net : Network float) alpha s max_rounds (epsilon : float) aid ag,
      ConsensusSimulation_init net alpha = Ok s ->
      1 <= max_rounds ->
      ltb zero epsilon = true ->
      agents net = [(aid, ag)] -> neighbors ag = [] ->
      exists s',
        run max_rounds epsilon s = (Ok 1, s') /\
        agents (network s') = [(aid, ag)]) /\
  (forall (net : Network Q) alpha s max_rounds (epsilon : Q) aid ag,
      ConsensusSimulation_init net alpha = Ok s ->
      1 <= max_rounds ->
      (0 < epsilon)%Q ->
      agents net = [(aid, ag)] -> neighbors ag = [] ->
      exists s',
        run max_rounds epsilon s = (Ok 1, s') /\
        agents (network s') = [(aid, ag)]).
Proof.
  split; [|split].
  - intros T ST net alpha s max_rounds epsilon Hwf Hinit Hmax.
    apply ConsensusSimulation_init_Ok in Hinit. subst s.
    set (s := mkSim net alpha 0 []).
    destruct (@run_first_round T ST max_rounds epsilon s Hwf Hmax)
      as (n & s' & Hrun & Hn & Hcr).
    cbn [current_round s] in Hrun, Hcr. rewrite Z.add_0_l in Hrun, Hcr.
    exists (Z.of_nat n), s'. splits; auto; [lia|].
    intros Hnil.
    pose proof (step_eq (set_previous_values s (get_all_values (network s)))
                        Hwf) as Hs.
    cbn [network set_previous_values s agents step_size current_round
         _previous_values] in Hs.
    rewrite Hnil in Hs. cbn [map] in Hs.
    destruct (@run_one_round T ST max_rounds epsilon s _ Hwf Hmax Hs)
      as (s'' & Hrun' & Hnet).
    + now apply converged_no_agent.
    + rewrite Hrun' in Hrun. inversion Hrun as [[Hr Hs']]. subst s''.
      split; [lia | now rewrite Hnet].
  - intros net alpha s max_rounds epsilon aid ag Hinit Hmax Heps Hone Hn.
    apply ConsensusSimulation_init_Ok in Hinit. subst s.
    destruct net as [d]. cbn [agents] in Hone. subst d.
    apply run_lone; auto.
    destruct (@self_distance_below (value ag) epsilon Heps) as [Hlt|Hnot].
    + now left.
    + right. split; [exact Hnot | reflexivity].
  - intros net alpha s max_rounds epsilon aid ag Hinit Hmax Heps Hone Hn.
    apply ConsensusSimulation_init_Ok in Hinit. subst s.
    destruct net as [d]. cbn [agents] in Hone. subst d.
    apply run_lone; auto.
    left. apply Qlt_bool_iff. cbn [sub scalar].
    unfold Qminus. now rewrite Qplus_opp_r.
Qed.

(** C5 as first stated fails on binary64: NaN is refused although it is
    neither [<= 0] nor [> 1]. *)
Lemma init_nan_counterexample :
  ConsensusSimulation_init (Network_init (T:=float)) nan = Raise ValueError /\
  leb nan (zero (T:=float)) = false /\
  ltb (one (T:=float)) nan = false.
Proof.
  repeat split.
Qed.

(** C5 (amended).  The constructor raises ValueError
    (InvalidConfiguration) exactly when [0 < step_size <= 1] does not hold,
    and otherwise returns the new simulation, round 0 and empty snapshot;
    when it raises there is no simulation.  On binary64 that is when
    [step_size <= 0], [step_size > 1] or [step_size] is NaN; in exact
    arithmetic, when [step_size <= 0] or [step_size > 1].  The step sizes
    0, 1.5 and -0.2 are refused, 1.0 and 0.0001 accepted. *)
Theorem init_step_size_spec :
  (forall (T : Type) (ST : Scalar T) (net : Network T) (alpha : T),
      (ConsensusSimulation_init net alpha = Raise ValueError
       <-> ltb zero alpha && leb alpha one = false) /\
      (ConsensusSimulation_init net alpha = Ok (mkSim net alpha 0 [])
       <-> ltb zero alpha && leb alpha one = true) /\
      (forall s, ConsensusSimulation_init net alpha = Ok s ->
                 s = mkSim net alpha 0 [])) /\
  (forall alpha : float,
      ltb zero alpha && leb alpha one = false
      <-> leb alpha zero = true \/ ltb one alpha = true
          \/ PrimFloat.is_nan alpha = true) /\
  (forall alpha : Q,
      ltb zero alpha && leb alpha one = false
      <-> (alpha <= 0 \/ 1 < alpha)%Q) /\
  (forall net : Network float,
      ConsensusSimulation_init net 0%float = Raise ValueError /\
      ConsensusSimulation_init net 1.5%float = Raise ValueError /\
      ConsensusSimulation_init net (-0.2)%float = Raise ValueError /\
      ConsensusSimulation_init net 1%float = Ok (mkSim net 1%float 0 []) /\
      ConsensusSimulation_init net 0.0001%float
      = Ok (mkSim net 0.0001%float 0 [])).
Proof.
  split; [|split; [|split]].
  - intros T ST net alpha. unfold ConsensusSimulation_init.
    destruct (ltb zero alpha && leb alpha one); cbn [negb].
    + split; [split; [discriminate | discriminate]|].
      split; [split; reflexivity|]. now intros s [= <-].
    + split; [split; reflexivity|].
      split; [split; discriminate | discriminate].
  - intros alpha. apply refused_iff.
  - intros alpha. rewrite <- (init_Raise_iff (Network_init (T:=Q)) alpha).
    unfold ConsensusSimulation_init.
    destruct (ltb zero alpha && leb alpha one); cbn [negb];
      split; congruence.
  - intros net. repeat split.
Qed.

(** ** These theorems at work on concrete networks *)

Lemma has_converged_spec_witness :
  exists answer,
    fst (has_converged 0.001%float (line_sim (T:=float))) = Ok answer /\
    answer = true.
Proof.
  destruct (proj1 has_converged_spec float _ 0.001%float line_sim)
    as (answer & Hfst & _ & Hv).
  destruct (Hv 0%float [10%float; 20%float; 30%float] eq_refl) as [_ Hratio].
  exists answer. split; [exact Hfst | exact (Hratio eq_refl)].
Defined.

Lemma run_at_least_one_round_witness :
  (exists r s',
      run 3 (1 # 1000)%Q (line_sim (T:=Q)) = (Ok r, s') /\ 1 <= r) /\
  (exists s',
      run 1000 0.001%float
          (mkSim (mkNetwork [(0, mkAgent 0 infinity [])]) 0.5%float 0 [])
      = (Ok 1, s') /\
      agents (network s') = [(0, mkAgent 0 infinity [])]).
Proof.
  destruct run_at_least_one_round as (Hany & Hfloat & _). split.
  - destruct (Hany Q _ line_network (1 # 2)%Q line_sim 3 (1 # 1000)%Q)
      as (r & s' & Hrun & Hr & _).
    + apply wf_networkb_sound. reflexivity.
    + reflexivity.
    + lia.
    + exists r, s'. split; [exact Hrun | exact Hr].
  - apply (Hfloat (mkNetwork [(0, mkAgent 0 infinity [])]) 0.5%float).
    + reflexivity.
    + lia.
    + reflexivity.
    + reflexivity.
    + reflexivity.
Defined.

Lemma init_step_size_spec_witness :
  ConsensusSimulation_init (line_network (T:=float)) nan = Raise ValueError.
Proof.
  destruct init_step_size_spec as (Hany & Hfloat & _).
  apply (proj1 (Hany float _ line_network nan)).
  apply (proj2 (Hfloat nan)). right. right. reflexivity.
Defined.
